(** * radix.improved: the RESP codec of package [resp] and the streaming
      encoder [encoder2] of package [radix]

    The development embeds
    - [resp/resp.go]: the [Pool] (a [bytes.Buffer] and a scratch slice), the
      line readers, the five scalar codecs and the generic marshaler [Any];
    - [encoder2.go]: the streaming encoder over a [bufio.Writer].

    Byte slices live in a store of backing arrays, so that the sharing between
    the pool's buffer, the accumulator [ogBuf] of [Any.MarshalRESP] and the
    slices the codecs return is part of the model. *)

From Stdlib Require Import List ZArith Lia Bool Arith PeanoNat.
From Stdlib Require String.
From Stdlib.Strings Require Import Byte.
Import ListNotations.
Import String.StringSyntax.
Local Open Scope string_scope.

Set Implicit Arguments.

(* ================================================================== *)
(** * Bytes and Go errors *)

Definition bytes := list byte.

Definition bs (s : String.string) : bytes := String.list_byte_of_string s.

Definition CR : byte := x0d.
Definition LF : byte := x0a.

Definition byte_val (b : byte) : Z := Z.of_N (Byte.to_N b).

Definition bytes_eqb (a b : bytes) : bool :=
  if list_eq_dec Byte.byte_eq_dec a b then true else false.

(** The error values the two packages build or pass on.  [fmt.Errorf] results
    are kept structured: the constructor names the format, the arguments are
    what the format prints. *)
Inductive error : Type :=
| EOF                                     (* io.EOF *)
| ErrShortWrite                           (* io.ErrShortWrite *)
| ErrPrefix (expected got : bytes)        (* "expected prefix %q, got %q" *)
| ErrBulkLen (expected got : Z)           (* "bulk string expected %d bytes but got %d" *)
| ErrBulkDelim (expected got : bytes)     (* "bulk string expected delim %q but got %q" *)
| ErrSyntax (num : bytes)                 (* strconv.NumError, ErrSyntax *)
| ErrRange (num : bytes)                  (* strconv.NumError, ErrRange *)
| ErrCouldNotMarshal (ty : String.string)        (* "could not marshal value of type %T" *)
| ErrCannotEncode (ty : String.string)           (* "cannot encode %T as a redis type" *)
| ErrorString (msg : bytes).              (* errors.New(msg), and errors of callers *)

(* ================================================================== *)
(** * strconv: base-10 formatting and parsing of 64-bit integers *)

Module strconv.

Definition maxUint64 : Z := 2 ^ 64 - 1.

Definition digit_byte (d : Z) : byte :=
  match Byte.of_N (Z.to_N (48 + d)) with Some b => b | None => x00 end.

(** [formatBits]: the decimal digits of [u], least significant first, pushed
    in front of what is already there.  A uint64 has at most 20 digits. *)
Fixpoint formatBits (fuel : nat) (u : Z) (acc : bytes) : bytes :=
  match fuel with
  | O => acc
  | S fuel' =>
      let acc' := digit_byte (u mod 10) :: acc in
      if (u / 10 =? 0)%Z then acc' else formatBits fuel' (u / 10) acc'
  end.

(** [strconv.AppendInt(dst, i, 10)] appends [FormatInt i] to [dst]. *)
Definition FormatInt (i : Z) : bytes :=
  if (i <? 0)%Z
  then "-"%byte :: formatBits 20 ((- i) mod 2 ^ 64) []
  else formatBits 20 (i mod 2 ^ 64) [].

Definition is_digit (c : byte) : bool :=
  ((48 <=? byte_val c) && (byte_val c <=? 57))%Z.

(** The loop of [ParseUint(s, 10, 64)]: [n] is the value read so far. *)
Fixpoint parseUint_loop (n : Z) (s : bytes) : Z * option (bytes -> error) :=
  match s with
  | [] => (n, None)
  | c :: s' =>
      if is_digit c then
        let d := (byte_val c - 48)%Z in
        if (n >=? maxUint64 / 10 + 1)%Z then (maxUint64, Some ErrRange)
        else
          let n10 := (n * 10)%Z in
          let n1 := ((n10 + d) mod 2 ^ 64)%Z in
          if ((n1 <? n10) || (maxUint64 <? n1))%Z then (maxUint64, Some ErrRange)
          else parseUint_loop n1 s'
      else (0%Z, Some ErrSyntax)
  end.

Definition ParseUint (s : bytes) : Z * option (bytes -> error) :=
  match s with
  | [] => (0%Z, Some ErrSyntax)
  | _ => parseUint_loop 0 s
  end.

(** [ParseInt(s, 10, 64)]: an optional sign, then [ParseUint]; the result is
    clamped and a range error returned when it does not fit an int64. *)
Definition ParseInt (s0 : bytes) : Z * option error :=
  match s0 with
  | [] => (0%Z, Some (ErrSyntax s0))
  | c :: rest =>
      let '(neg, s) :=
        if Byte.eqb c "+"%byte then (false, rest)
        else if Byte.eqb c "-"%byte then (true, rest)
        else (false, s0) in
      let '(un, err) := ParseUint s in
      match err with
      | Some mk =>
          match mk s0 with
          | ErrRange _ =>
              if neg then ((- 2 ^ 63)%Z, Some (ErrRange s0))
              else ((2 ^ 63 - 1)%Z, Some (ErrRange s0))
          | e => (0%Z, Some e)
          end
      | None =>
          let cutoff := (2 ^ 63)%Z in
          if negb neg && (un >=? cutoff)%Z then ((cutoff - 1)%Z, Some (ErrRange s0))
          else if neg && (un >? cutoff)%Z then ((- cutoff)%Z, Some (ErrRange s0))
          else ((if neg then - un else un)%Z, None)
      end
  end.

End strconv.

(* ================================================================== *)
(** * The store of backing arrays, slices, and the effect monad *)

(** A Go function either returns or panics. *)
Inductive res (A : Type) : Type :=
| Ok (a : A)
| Panic (msg : String.string).
Arguments Ok {A} a.
Arguments Panic {A} msg.

(** Backing arrays are rows of cells addressed by the order of their
    allocation; [next] is the first row not yet allocated.  What can be reached
    through a slice is bounded by the slice header's [s_cap], as in Go. *)
Record mem : Type := mkMem { cells : nat -> nat -> byte; next : nat }.

(** A non-nil [[]byte]: backing array, offset of its first element, len, cap. *)
Record slice : Type := mkSlice { s_arr : nat; s_off : nat; s_len : nat; s_cap : nat }.

(** A [[]byte] value as the codecs receive and return it: the nil slice, a
    slice of the store, or data that lives outside the store (package-level
    constants, the caller's own data), which nothing modelled here writes to
    and which has no spare capacity. *)
Inductive gobytes : Type :=
| GNil
| GLit (l : bytes)
| GSl (s : slice).

Definition of_oslice (s : option slice) : gobytes :=
  match s with None => GNil | Some s => GSl s end.

Definition of_obytes (b : option bytes) : gobytes :=
  match b with None => GNil | Some l => GLit l end.

Definition loadn (m : mem) (a o n : nat) : bytes :=
  map (fun k => cells m a (o + k)) (seq 0 n).

Definition load (m : mem) (s : slice) : bytes :=
  loadn m (s_arr s) (s_off s) (s_len s).

Definition content (m : mem) (g : gobytes) : bytes :=
  match g with GNil => [] | GLit l => l | GSl s => load m s end.

Definition glen (g : gobytes) : nat :=
  match g with GNil => 0 | GLit l => length l | GSl s => s_len s end.

Definition is_nil (g : gobytes) : bool :=
  match g with GNil => true | _ => false end.

Definition olen (s : option slice) : nat :=
  match s with None => 0 | Some s => s_len s end.

Definition ocap (s : option slice) : nat :=
  match s with None => 0 | Some s => s_cap s end.

(** [store a pos l m]: the bytes [l] written to array [a] from cell [pos]. *)
Definition store (a pos : nat) (l : bytes) (m : mem) : mem :=
  {| cells := fun i j =>
       if (i =? a) && (pos <=? j) && (j <? pos + length l)
       then nth (j - pos) l x00 else cells m i j;
     next := next m |}.

Definition M (A : Type) : Type := mem -> res (A * mem).

Definition ret {A} (a : A) : M A := fun m => Ok (a, m).

Definition bind {A B} (c : M A) (k : A -> M B) : M B :=
  fun m => match c m with Ok (a, m') => k a m' | Panic s => Panic s end.

Definition panic {A} (msg : String.string) : M A := fun _ => Panic msg.

Definition lift {A} (r : res A) : M A :=
  fun m => match r with Ok a => Ok (a, m) | Panic s => Panic s end.

Notation "x <- c ;; k" := (bind c (fun x => k))
  (at level 61, c at next level, right associativity).
Notation "' pat <- c ;; k" := (bind c (fun x => match x with pat => k end))
  (at level 61, pat pattern, c at next level, right associativity).

(** The store with one more array, zeroed. *)
Definition allocate (m : mem) : mem :=
  {| cells := fun i j => if i =? next m then x00 else cells m i j;
     next := S (next m) |}.

(** [make([]byte, len, cap)]. *)
Definition make (len cap : nat) : M slice :=
  fun m => Ok (mkSlice (next m) 0 len cap, allocate m).

Definition read (g : gobytes) : M bytes := fun m => Ok (content m g, m).

Definition write_at (a pos : nat) (l : bytes) : M unit :=
  fun m => Ok (tt, store a pos l m).

Definition oob : String.string := "slice bounds out of range".

(** The slice expression [s[lo:hi]]. *)
Definition sub (s : slice) (lo hi : nat) : slice :=
  mkSlice (s_arr s) (s_off s + lo) (hi - lo) (s_cap s - lo).

Definition slice_expr (s : option slice) (lo hi : nat) : res (option slice) :=
  match s with
  | None => if (lo =? 0) && (hi =? 0) then Ok None else Panic oob
  | Some s => if (lo <=? hi) && (hi <=? s_cap s) then Ok (Some (sub s lo hi)) else Panic oob
  end.

(** [copy(dst, src)] for a destination in the store: [min(len dst, len src)]
    bytes, as by memmove ([src] has been read before anything is written). *)
Definition copy (dst : option slice) (src : bytes) : M nat :=
  match dst with
  | None => ret 0
  | Some d =>
      let n := Nat.min (s_len d) (length src) in
      _ <- write_at (s_arr d) (s_off d) (firstn n src) ;; ret n
  end.

(** [bytes.IndexByte]. *)
Fixpoint IndexByte (b : bytes) (c : byte) : Z :=
  match b with
  | [] => (-1)%Z
  | x :: r =>
      if Byte.eqb x c then 0%Z
      else let i := IndexByte r c in if (i <? 0)%Z then (-1)%Z else (i + 1)%Z
  end.

(* ================================================================== *)
(** * Package radix: the streaming encoder *)

Module Radix.

(** ** The sink: io.Writer, and the bufio.Writer in front of it *)

(** io.Writer: [io_Write w p] is [w.Write(p)], the new state of the writer,
    the number of bytes it took and its error. *)
Class Writer (W : Type) : Type :=
  { io_Write : W -> bytes -> W * (nat * option error) }.

(** A sink that takes [room] more bytes and then fails with [failure]. *)
Record Sink : Type := mkSink { sunk : bytes; room : nat; failure : error }.

#[global] Instance Sink_Writer : Writer Sink :=
  { io_Write s p :=
      if length p <=? room s
      then (mkSink (sunk s ++ p) (room s - length p) (failure s), (length p, None))
      else (mkSink (sunk s ++ firstn (room s) p) 0 (failure s), (room s, Some (failure s))) }.

Section Encoder.

Context {W : Type} `{Writer W}.

(** [bufio.Writer]: [wbuf] is [b.buf[0:b.n]], [wsize] is [len(b.buf)]. *)
Record bufio_Writer : Type :=
  mkWriter { wr : W; wbuf : bytes; wsize : nat; werr : option error }.


Definition Available (b : bufio_Writer) : nat := wsize b - length (wbuf b).
Definition Buffered (b : bufio_Writer) : nat := length (wbuf b).

Definition Flush (b : bufio_Writer) : bufio_Writer * option error :=
  match werr b with
  | Some e => (b, Some e)
  | None =>
      if Buffered b =? 0 then (b, None)
      else
        let '(w', (n, err)) := io_Write (wr b) (wbuf b) in
        let err := match err with
                   | None => if n <? Buffered b then Some ErrShortWrite else None
                   | Some e => Some e
                   end in
        match err with
        | Some e => (mkWriter w' (skipn n (wbuf b)) (wsize b) (Some e), Some e)
        | None => (mkWriter w' [] (wsize b) None, None)
        end
  end.

(** The loop of [bufio.Writer.Write]; every round takes bytes off [p], empties
    the buffer or sets the error, which bounds the rounds. *)
Fixpoint Write_loop (rounds : nat) (b : bufio_Writer) (p : bytes) (nn : nat)
  : bufio_Writer * bytes * nat :=
  match rounds with
  | O => (b, p, nn)
  | S rounds' =>
      match werr b with
      | None =>
          if Available b <? length p then
            if Buffered b =? 0 then
              (* Large write, empty buffer: write directly from p. *)
              let '(w', (n, err)) := io_Write (wr b) p in
              Write_loop rounds' (mkWriter w' (wbuf b) (wsize b) err) (skipn n p) (nn + n)
            else
              let n := Nat.min (Available b) (length p) in
              let '(b', _) := Flush (mkWriter (wr b) (wbuf b ++ firstn n p) (wsize b) (werr b)) in
              Write_loop rounds' b' (skipn n p) (nn + n)
          else (b, p, nn)
      | Some _ => (b, p, nn)
      end
  end.

Definition bufio_Write (b : bufio_Writer) (p : bytes) : bufio_Writer * (nat * option error) :=
  let '(b, p, nn) := Write_loop (S (S (length p))) b p 0 in
  match werr b with
  | Some e => (b, (nn, Some e))
  | None =>
      let n := Nat.min (Available b) (length p) in
      (mkWriter (wr b) (wbuf b ++ firstn n p) (wsize b) None, (nn + n, None))
  end.

(** ** Wire constants of package radix *)

Definition delim : bytes := [CR; LF].
Definition simpleStrPrefix : bytes := bs "+".
Definition errPrefix : bytes := bs "-".
Definition intPrefix : bytes := bs ":".
Definition bulkStrPrefix : bytes := bs "$".
Definition arrayPrefix : bytes := bs "*".
Definition nilBulkStr : bytes := bs "$-1" ++ delim.
Definition nilArray : bytes := bs "*-1" ++ delim.

(** Modelled from the spec: [bools] and [anyIntToInt64] of package radix are
    not among the sources; they are taken to be those of package resp (a
    boolean is the literal 0 or 1, every integer width is widened to int64). *)
Definition bools (b : bool) : bytes := if b then bs "1" else bs "0".
Definition anyIntToInt64 (i : Z) : Z := ((i + 2 ^ 63) mod 2 ^ 64 - 2 ^ 63)%Z.

(** ** encoder2 *)

(** Modelled from the spec: the [LenReader] interface is not among the
    sources; it is a known length and a readable body.  A reader is given by
    what [Len()] says, the bytes its [Read] yields, and the error that ends
    them ([None] for io.EOF). *)
Record LenReader : Type := mkLenReader { lr_Len : Z; lr_body : bytes; lr_err : option error }.

(** What [encoder2.write] can be given, by the first case of its type switch
    that takes it. *)
#[local] Unset Elimination Schemes.
Inductive value : Type :=
| VLenReader (lr : LenReader)
| VBytes (b : bytes)
| VString (s : bytes)
| VBool (b : bool)
| VFloat32 (repr : bytes)                (* by what AppendFloat(.., 'f', -1, 32) prints *)
| VFloat64 (repr : bytes)
| VNil
| VInt (i : Z)
| VError (msg : bytes)                   (* an error, by its Error() text *)
| VTextMarshaler (out : bytes) (err : option error)
| VBinaryMarshaler (out : bytes) (err : option error)
| VMarshaler (out : bytes)               (* a radix.Marshaler, by what its Marshal writes *)
| VPtr (pointee : option value)
| VOther (ty : String.string).
#[local] Set Elimination Schemes.

Record encoder2 : Type :=
  mkEncoder { w : bufio_Writer; bodyBuf : bytes; scratch : bytes }.


Definition set_w (e : encoder2) (b : bufio_Writer) : encoder2 :=
  mkEncoder b (bodyBuf e) (scratch e).

Definition writeBytes (e : encoder2) (prevErr : option error) (b : bytes)
  : encoder2 * option error :=
  match prevErr with
  | Some err => (e, Some err)
  | None => let '(w', (_, err)) := bufio_Write (w e) b in (set_w e w', err)
  end.

(** [io.Copy(e.w, lr)] for [lr] the encoder's own [bodyBuf]: the buffer's
    [WriteTo], which hands the unread bytes to [e.w] and resets the buffer
    when all of them were taken. *)
Definition Copy_bodyBuf (e : encoder2) : encoder2 * option error :=
  if length (bodyBuf e) =? 0 then (mkEncoder (w e) [] (scratch e), None)
  else
    let '(w', (m, err)) := bufio_Write (w e) (bodyBuf e) in
    match err with
    | Some x => (mkEncoder w' (skipn m (bodyBuf e)) (scratch e), Some x)
    | None =>
        if m =? length (bodyBuf e) then (mkEncoder w' [] (scratch e), None)
        else (mkEncoder w' (skipn m (bodyBuf e)) (scratch e), Some ErrShortWrite)
    end.

(** [io.Copy(e.w, lr)] for a reader of the caller: its body goes to [e.w]; the
    copy stops at the first error of either side. *)
Definition Copy_reader (e : encoder2) (lr : LenReader) : encoder2 * option error :=
  let '(w', (_, err)) := bufio_Write (w e) (lr_body lr) in
  (set_w e w', match err with Some x => Some x | None => lr_err lr end).

Definition writeLenReader (e : encoder2) (len : Z)
  (copy_body : encoder2 -> encoder2 * option error) : encoder2 * option error :=
  let '(e, err) := writeBytes e None bulkStrPrefix in
  let '(e, err) := writeBytes e err (strconv.FormatInt len) in
  let '(e, err) := writeBytes e err delim in
  match err with
  | Some x => (e, Some x)
  | None =>
      let '(e, err) := copy_body e in
      writeBytes e err delim
  end.

(** [e.writeLenReader(e.bodyBuf)] after [e.bodyBuf.Write(b)]. *)
Definition writeBody (e : encoder2) (b : bytes) : encoder2 * option error :=
  let e := mkEncoder (w e) (bodyBuf e ++ b) (scratch e) in
  writeLenReader e (Z.of_nat (length (bodyBuf e))) Copy_bodyBuf.

Definition writeInt (e : encoder2) (i : Z) : encoder2 * option error :=
  let '(e, err) := writeBytes e None intPrefix in
  let '(e, err) := writeBytes e err (strconv.FormatInt i) in
  writeBytes e err delim.

(** Modelled from the spec: [AppErr] is not among the sources; its [Error()]
    is the message text of the error it wraps. *)
Definition writeAppErr (e : encoder2) (msg : bytes) : encoder2 * option error :=
  let '(e, err) := writeBytes e None errPrefix in
  let '(e, err) := writeBytes e err msg in
  writeBytes e err delim.

Definition writeArrayHeader (e : encoder2) (l : Z) : encoder2 * option error :=
  let '(e, err) := writeBytes e None arrayPrefix in
  let '(e, err) := writeBytes e err (strconv.FormatInt l) in
  writeBytes e err delim.

Definition writeBulkNil (e : encoder2) : encoder2 * option error :=
  writeBytes e None nilBulkStr.

Definition writeArrayNil (e : encoder2) : encoder2 * option error :=
  writeBytes e None nilArray.

Fixpoint write (e : encoder2) (v : value) {struct v} : res (encoder2 * option error) :=
  match v with
  | VLenReader lr => Ok (writeLenReader e (lr_Len lr) (fun e => Copy_reader e lr))
  | VBytes b => Ok (writeBody e b)
  | VString s => Ok (writeBody e s)
  | VBool b => Ok (writeBody e (bools b))
  | VFloat32 repr | VFloat64 repr => Ok (writeBody e repr)
  | VNil => Ok (writeBulkNil e)
  | VInt i => Ok (writeInt e (anyIntToInt64 i))
  | VError msg => Ok (writeAppErr e msg)
  | VTextMarshaler out err | VBinaryMarshaler out err =>
      match err with
      | Some x => Ok (e, Some x)
      | None => Ok (writeBody e out)
      end
  | VMarshaler out => Ok (writeBytes e None out)
  | VPtr (Some pointee) => write e pointee
  | VPtr None => Panic "reflect: call of reflect.Value.Interface on zero Value"
  | VOther ty => Ok (e, Some (ErrCannotEncode ty))
  end.


End Encoder.

End Radix.

(* ================================================================== *)
(** * Package resp *)

Section Resp.

(** The capacity the runtime gives a slice that has to grow: [growcap c n] for
    a slice of capacity [c] that needs room for [n] elements.  Go fixes only
    that the result has room for them. *)
Variable growcap : nat -> nat -> nat.
Hypothesis growcap_ge : forall c n, n <= growcap c n.

(** ** The built-in [append] *)

Definition append (s : option slice) (data : bytes) : M (option slice) :=
  match data with
  | [] => ret s
  | _ =>
      let n := olen s + length data in
      match s with
      | Some s0 =>
          if n <=? s_cap s0 then
            _ <- write_at (s_arr s0) (s_off s0 + s_len s0) data ;;
            ret (Some (mkSlice (s_arr s0) (s_off s0) n (s_cap s0)))
          else
            old <- read (GSl s0) ;;
            s' <- make n (growcap (s_cap s0) n) ;;
            _ <- write_at (s_arr s') 0 (old ++ data) ;;
            ret (Some s')
      | None =>
          s' <- make n (growcap 0 n) ;;
          _ <- write_at (s_arr s') 0 data ;;
          ret (Some s')
      end
  end.

Definition gappend (g : gobytes) (data : bytes) : M gobytes :=
  match g with
  | GNil => s <- append None data ;; ret (of_oslice s)
  | GSl s0 => s <- append (Some s0) data ;; ret (of_oslice s)
  | GLit l =>
      match data with
      | [] => ret g
      | _ =>
          let n := length l + length data in
          s' <- make n (growcap (length l) n) ;;
          _ <- write_at (s_arr s') 0 (l ++ data) ;;
          ret (GSl s')
      end
  end.

(** ** bytes.Buffer *)

(** The contents are [buf[off:len(buf)]]; reads advance [off], writes extend
    [buf].  This is the [bytes.Buffer] of the current standard library: the
    struct holds the slice header and the read offset and no array of its own
    (and [lastRead], which only the Unread methods look at), so that the copy
    [ogBuf := p.buf] of [Any.MarshalRESP] shares the backing array with
    [p.buf] and nothing else. *)
Record Buffer : Type := mkBuffer { buf : option slice; off : nat }.

Definition smallBufferSize : nat := 64.

Definition NewBuffer (s : option slice) : Buffer := mkBuffer s 0.

Definition Buffer_Len (b : Buffer) : nat := olen (buf b) - off b.

Definition Buffer_Bytes (b : Buffer) : res (option slice) :=
  slice_expr (buf b) (off b) (olen (buf b)).

Definition Buffer_Reset (b : Buffer) : Buffer :=
  mkBuffer (option_map (fun s => sub s 0 0) (buf b)) 0.

Definition Buffer_empty (b : Buffer) : bool := olen (buf b) <=? off b.

Definition tryGrowByReslice (b : Buffer) (n : nat) : option (Buffer * nat) :=
  let l := olen (buf b) in
  if n <=? ocap (buf b) - l
  then Some (mkBuffer (option_map (fun s => sub s 0 (l + n)) (buf b)) (off b), l)
  else None.

(** [growSlice(b, n)]: a fresh array of at least [len(b)+n] and at least twice
    the old capacity, holding a copy of [b]. *)
Definition growSlice (b : option slice) (n : nat) : M (option slice) :=
  let c := olen b + n in
  let c := if c <? 2 * ocap b then 2 * ocap b else c in
  b2 <- make c (growcap 0 c) ;;
  old <- read (of_oslice b) ;;
  _ <- copy (Some b2) old ;;
  lift (slice_expr (Some b2) 0 (olen b)).

(** [grow(n)]: room for [n] more bytes; returns the index to write at.  The
    [ErrTooLarge] guard against capacities beyond [maxInt] is left out:
    lengths are unbounded here. *)
Definition Buffer_grow (b : Buffer) (n : nat) : M (Buffer * nat) :=
  let m := Buffer_Len b in
  let b := if (m =? 0) && negb (off b =? 0) then Buffer_Reset b else b in
  match tryGrowByReslice b n with
  | Some r => ret r
  | None =>
      if is_nil (of_oslice (buf b)) && (n <=? smallBufferSize) then
        s <- make n smallBufferSize ;;
        ret (mkBuffer (Some s) (off b), 0)
      else
        let c := ocap (buf b) in
        unread <- lift (slice_expr (buf b) (off b) (olen (buf b))) ;;
        b' <- (if (Z.of_nat n <=? Z.of_nat c / 2 - Z.of_nat m)%Z then
                 data <- read (of_oslice unread) ;;
                 _ <- copy (buf b) data ;;
                 ret (buf b)
               else growSlice unread (off b + n)) ;;
        s <- lift (slice_expr b' 0 (m + n)) ;;
        ret (mkBuffer s 0, m)
  end.

Definition Buffer_Write (b : Buffer) (p : gobytes) : M Buffer :=
  '(b1, m) <- match tryGrowByReslice b (glen p) with
              | Some r => ret r
              | None => Buffer_grow b (glen p)
              end ;;
  dst <- lift (slice_expr (buf b1) m (olen (buf b1))) ;;
  data <- read p ;;
  _ <- copy dst data ;;
  ret b1.

(** [Next(n)]: the next [n] unread bytes, fewer when fewer are left. *)
Definition Buffer_Next (b : Buffer) (n : Z) : res (Buffer * option slice) :=
  let m := Z.of_nat (Buffer_Len b) in
  let n := if (n >? m)%Z then m else n in
  if (n <? 0)%Z then Panic oob
  else
    let k := Z.to_nat n in
    match slice_expr (buf b) (off b) (off b + k) with
    | Ok data => Ok (mkBuffer (buf b) (off b + k), data)
    | Panic s => Panic s
    end.

Definition Buffer_ReadByte (b : Buffer) : M (Buffer * (byte * option error)) :=
  if Buffer_empty b then ret (Buffer_Reset b, (x00, Some EOF))
  else
    match buf b with
    | Some s =>
        fun m => Ok ((mkBuffer (buf b) (S (off b)),
                      (cells m (s_arr s) (s_off s + off b), None)), m)
    | None => panic "index out of range"
    end.

(** ** Wire constants *)

Definition delim : bytes := [CR; LF].
Definition simpleStrPrefix : bytes := bs "+".
Definition errPrefix : bytes := bs "-".
Definition intPrefix : bytes := bs ":".
Definition bulkStrPrefix : bytes := bs "$".
Definition arrayPrefix : bytes := bs "*".
Definition nilBulkString : bytes := bs "$-1" ++ delim.
Definition nilArray : bytes := bs "*-1" ++ delim.
Definition bools (b : bool) : bytes := if b then bs "1" else bs "0".

(** [anyIntToInt64]: every integer width converted to int64; a uint64 above
    the int64 range wraps. *)
Definition anyIntToInt64 (i : Z) : Z := ((i + 2 ^ 63) mod 2 ^ 64 - 2 ^ 63)%Z.

(** ** Pool *)

Record Pool : Type := mkPool { p_buf : Buffer; scratch : option slice }.

Definition set_buf (p : Pool) (b : Buffer) : Pool := mkPool b (scratch p).
Definition set_scratch (p : Pool) (s : option slice) : Pool := mkPool (p_buf p) s.

Definition new_Pool : Pool := mkPool (mkBuffer None 0) None.

(** [p.get()], the one method that accepts a nil [*Pool]. *)
Definition get (pp : option Pool) : Pool :=
  match pp with
  | None => new_Pool
  | Some p => mkPool (Buffer_Reset (p_buf p)) (option_map (fun s => sub s 0 0) (scratch p))
  end.

(** The pool a method with a possibly nil [*Pool] leaves behind when it
    returns before [get]. *)
Definition untouched (pp : option Pool) : Pool :=
  match pp with None => new_Pool | Some p => p end.

Definition readSlice (p : Pool) (d : byte) : M (Pool * (option slice * option error)) :=
  b <- lift (Buffer_Bytes (p_buf p)) ;;
  data <- read (of_oslice b) ;;
  let i := IndexByte data d in
  let '(i, err) := if (i <? 0)%Z then (Z.of_nat (olen b), Some EOF) else (i, None) in
  '(b', r) <- lift (Buffer_Next (p_buf p) (i + 1)) ;;
  ret (set_buf p b', (r, err)).

Definition bufferedPrefix (p : Pool) (prefix : bytes) : M (Pool * option error) :=
  '(b', b) <- lift (Buffer_Next (p_buf p) (Z.of_nat (length prefix))) ;;
  data <- read (of_oslice b) ;;
  ret (set_buf p b',
       if bytes_eqb data prefix then None else Some (ErrPrefix prefix data)).

Definition bufferedBytesDelim (p : Pool) : M (Pool * (option slice * option error)) :=
  '(p, (b, err)) <- readSlice p CR ;;
  match err with
  | Some e => ret (p, (None, Some e))
  | None =>
      (* there's a trailing \n we have to read *)
      '(b', (_, err)) <- Buffer_ReadByte (p_buf p) ;;
      r <- (if olen b =? 0 then panic oob else lift (slice_expr b 0 (olen b - 1))) ;;
      ret (set_buf p b', (r, err))
  end.

Definition bufferedIntDelim (p : Pool) : M (Pool * (Z * option error)) :=
  '(p, (b, err)) <- bufferedBytesDelim p ;;
  match err with
  | Some e => ret (p, (0%Z, Some e))
  | None => data <- read (of_oslice b) ;; ret (p, strconv.ParseInt data)
  end.

(** ** The scalar codecs

    A codec's [*Pool] field is the argument [pp] ([None] for a nil pointer);
    every method returns the pool it worked on next to its Go results.  An
    [UnmarshalRESP] has a pointer receiver: it takes the field's old value and
    returns the new one. *)

Definition Result : Type := Pool * (gobytes * option error).

Definition SimpleString_MarshalRESP (pp : option Pool) (S : gobytes) : M Result :=
  let p := get pp in
  b <- Buffer_Write (p_buf p) (GLit simpleStrPrefix) ;;
  b <- Buffer_Write b S ;;
  b <- Buffer_Write b (GLit delim) ;;
  r <- lift (Buffer_Bytes b) ;;
  ret (set_buf p b, (of_oslice r, None)).

Definition SimpleString_UnmarshalRESP (pp : option Pool) (S : gobytes) (b : gobytes)
  : M Result :=
  let p := get pp in
  b1 <- Buffer_Write (p_buf p) b ;;
  '(p, err) <- bufferedPrefix (set_buf p b1) simpleStrPrefix ;;
  match err with
  | Some e => ret (p, (S, Some e))
  | None =>
      '(p, (b, err)) <- bufferedBytesDelim p ;;
      ret (p, (of_oslice b, err))
  end.

(** [Error.E]: [None] is the nil error, [Some msg] an error whose text is
    [msg] (what [errors.New(msg)] builds). *)
Definition Error_MarshalRESP (pp : option Pool) (E : option bytes) : M Result :=
  let p := get pp in
  b <- Buffer_Write (p_buf p) (GLit errPrefix) ;;
  b <- match E with
       | Some msg => Buffer_Write b (GLit msg)
       | None => ret b
       end ;;
  b <- Buffer_Write b (GLit delim) ;;
  r <- lift (Buffer_Bytes b) ;;
  ret (set_buf p b, (of_oslice r, None)).

Definition Error_UnmarshalRESP (pp : option Pool) (E : option bytes) (b : gobytes)
  : M (Pool * (option bytes * option error)) :=
  let p := get pp in
  b1 <- Buffer_Write (p_buf p) b ;;
  '(p, err) <- bufferedPrefix (set_buf p b1) errPrefix ;;
  match err with
  | Some e => ret (p, (E, Some e))
  | None =>
      '(p, (b, err)) <- bufferedBytesDelim p ;;
      msg <- read (of_oslice b) ;;
      ret (p, (Some msg, err))
  end.

(** The line [prefix, AppendInt(p.scratch, i, 10), delim] that [Int],
    [ArrayHeader] and the head of [BulkString] write. *)
Definition Int_MarshalRESP (pp : option Pool) (I : Z) : M Result :=
  let p := get pp in
  b <- Buffer_Write (p_buf p) (GLit intPrefix) ;;
  digits <- append (scratch p) (strconv.FormatInt I) ;;
  b <- Buffer_Write b (of_oslice digits) ;;
  b <- Buffer_Write b (GLit delim) ;;
  r <- lift (Buffer_Bytes b) ;;
  ret (set_buf p b, (of_oslice r, None)).

Definition Int_UnmarshalRESP (pp : option Pool) (I : Z) (b : gobytes)
  : M (Pool * (Z * option error)) :=
  let p := get pp in
  b1 <- Buffer_Write (p_buf p) b ;;
  '(p, err) <- bufferedPrefix (set_buf p b1) intPrefix ;;
  match err with
  | Some e => ret (p, (I, Some e))
  | None =>
      '(p, (n, err)) <- bufferedIntDelim p ;;
      ret (p, (n, err))
  end.

Definition BulkString_MarshalRESP (pp : option Pool) (B : gobytes) : M Result :=
  if is_nil B then ret (untouched pp, (GLit nilBulkString, None))
  else
    let p := get pp in
    b <- Buffer_Write (p_buf p) (GLit bulkStrPrefix) ;;
    digits <- append (scratch p) (strconv.FormatInt (Z.of_nat (glen B))) ;;
    b <- Buffer_Write b (of_oslice digits) ;;
    b <- Buffer_Write b (GLit delim) ;;
    b <- Buffer_Write b B ;;
    b <- Buffer_Write b (GLit delim) ;;
    r <- lift (Buffer_Bytes b) ;;
    ret (set_buf p b, (of_oslice r, None)).

(** [BulkString.UnmarshalRESP] after the prefix: the declared length, then
    the payload and its terminator. *)
Definition BulkString_payload (B : gobytes) (p : Pool) : M Result :=
  '(p, (n, err)) <- bufferedIntDelim p ;;
  let nn := n in
  match err with
  | Some e => ret (p, (B, Some e))
  | None =>
      if (n =? -1)%Z then ret (p, (GNil, None))
      else
        B <- (if is_nil B then
                (* if b has any length we don't want it to be nil, but we
                   also don't want to overwrite any byte slice which has
                   already been allocated there. *)
                if (nn <? 0)%Z then panic "makeslice: cap out of range"
                else s <- make 0 (Z.to_nat nn) ;; ret (GSl s)
              else ret B) ;;
        '(b', d) <- lift (Buffer_Next (p_buf p) nn) ;;
        let p := set_buf p b' in
        data <- read (of_oslice d) ;;
        B <- gappend B data ;;
        if negb (Z.of_nat (glen B) =? nn)%Z
        then ret (p, (B, Some (ErrBulkLen nn (Z.of_nat (glen B)))))
        else
          '(b', d) <- lift (Buffer_Next (p_buf p) 2) ;;
          let p := set_buf p b' in
          data <- read (of_oslice d) ;;
          if bytes_eqb data delim then ret (p, (B, None))
          else ret (p, (B, Some (ErrBulkDelim delim data)))
  end.

Definition BulkString_UnmarshalRESP (pp : option Pool) (B : gobytes) (bb : gobytes)
  : M Result :=
  let p := get pp in
  b1 <- Buffer_Write (p_buf p) bb ;;
  '(p, err) <- bufferedPrefix (set_buf p b1) bulkStrPrefix ;;
  match err with
  | Some e => ret (p, (B, Some e))
  | None => BulkString_payload B p
  end.

Definition ArrayHeader_MarshalRESP (pp : option Pool) (N : Z) : M Result :=
  let p := get pp in
  b <- Buffer_Write (p_buf p) (GLit arrayPrefix) ;;
  digits <- append (scratch p) (strconv.FormatInt N) ;;
  b <- Buffer_Write b (of_oslice digits) ;;
  b <- Buffer_Write b (GLit delim) ;;
  r <- lift (Buffer_Bytes b) ;;
  ret (set_buf p b, (of_oslice r, None)).

Definition ArrayHeader_UnmarshalRESP (pp : option Pool) (N : Z) (b : gobytes)
  : M (Pool * (Z * option error)) :=
  let p := get pp in
  b1 <- Buffer_Write (p_buf p) b ;;
  '(p, err) <- bufferedPrefix (set_buf p b1) arrayPrefix ;;
  match err with
  | Some e => ret (p, (N, Some e))
  | None =>
      '(p, (n, err)) <- bufferedIntDelim p ;;
      ret (p, (n, err))
  end.

(** ** Any *)

(** What [Any.I] can hold, by the first case of the type switch of
    [Any.MarshalRESP] that takes it, then by its [reflect.Kind]. *)
#[local] Unset Elimination Schemes.
Inductive value : Type :=
| VBytes (b : option bytes)              (* []byte; None is the nil slice *)
| VString (s : bytes)                    (* string *)
| VBool (b : bool)
| VFloat32 (repr : bytes)                (* a float32, by what AppendFloat(.., 'f', -1, 32) prints *)
| VFloat64 (repr : bytes)                (* a float64, by what AppendFloat(.., 'f', -1, 64) prints *)
| VNil                                   (* the nil interface *)
| VInt (i : Z)                           (* int, int8 .. int64, uint, uint8 .. uint64 *)
| VError (msg : bytes)                   (* an error, by its Error() text *)
| VMarshaler (out : option bytes) (err : option error)        (* by what its MarshalRESP returns *)
| VTextMarshaler (out : option bytes) (err : option error)    (* by what its MarshalText returns *)
| VBinaryMarshaler (out : option bytes) (err : option error)  (* by what its MarshalBinary returns *)
| VPtr (pointee : option value)          (* a pointer; None is a nil pointer *)
| VReflectValue (v : option value)       (* a reflect.Value; None is the zero Value *)
| VSlice (elems : option (list value))   (* a slice other than []byte; None is nil *)
| VArray (elems : list value)            (* an array *)
| VMap (entries : option (list (value * value)))  (* a map, in the order MapKeys lists it *)
| VOther (ty : String.string).           (* any other type, by its %T name *)
#[local] Set Elimination Schemes.

(** [reflect.Indirect] of a pointer. *)
Definition Indirect (pointee : option value) : value := VReflectValue pointee.

Definition bulkStrFromScratch (p : Pool) : M Result :=
  let ogScratch := scratch p in
  tail <- lift (slice_expr (scratch p) (olen (scratch p)) (olen (scratch p))) ;;
  '(p, (b, err)) <- BulkString_MarshalRESP (Some (set_scratch p tail)) (of_oslice ogScratch) ;;
  (* We append the new scratch to the old *)
  rest <- read (of_oslice (scratch p)) ;;
  sc <- append ogScratch rest ;;
  ret (set_scratch p sc, (b, err)).

(** The locals [p], [ogBuf] and [err] that the helper closures of
    [Any.MarshalRESP] share. *)
Definition locals : Type := (Pool * Buffer * option error)%type.

Definition arrHeader (st : locals) (l : Z) : M locals :=
  let '(p, ogBuf, err) := st in
  match err with
  | Some _ => ret st
  | None =>
      '(p, (ahb, err)) <- ArrayHeader_MarshalRESP (Some p) l ;;
      match err with
      | None => ogBuf <- Buffer_Write ogBuf ahb ;; ret (p, ogBuf, None)
      | Some e => ret (p, ogBuf, Some e)
      end
  end.

(** [arrVal]: the pool's buffer becomes the unused tail of [ogBuf], the
    element is marshaled through it, and what it returned is written to
    [ogBuf]. *)
Definition arrVal (marshal : option Pool -> M Result) (st : locals) : M locals :=
  let '(p, ogBuf, _) := st in
  whole <- lift (Buffer_Bytes ogBuf) ;;
  tail <- lift (slice_expr whole (Buffer_Len ogBuf) (olen whole)) ;;
  '(p, (ib, err)) <- marshal (Some (set_buf p (NewBuffer tail))) ;;
  match err with
  | None => ogBuf <- Buffer_Write ogBuf ib ;; ret (p, ogBuf, None)
  | Some e => ret (p, ogBuf, Some e)
  end.

(** The default case of the kind switch. *)
Definition could_not_marshal (p : Pool) (ty : String.string) : M Result :=
  ret (p, (GNil, Some (ErrCouldNotMarshal ty))).

(** The end of [Any.MarshalRESP]: [ogBuf] goes back into the pool. *)
Definition restore (st : locals) : M Result :=
  let '(p, ogBuf, err) := st in
  r <- lift (Buffer_Bytes ogBuf) ;;
  ret (set_buf p ogBuf, (of_oslice r, err)).

(** The loop over the elements of a slice: [arrVal] of each, in order. *)
Definition each_elem (marshal : value -> option Pool -> M Result)
  : list value -> locals -> M locals :=
  fix each (l : list value) (st : locals) : M locals :=
    match l with
    | [] => ret st
    | x :: l' => st <- arrVal (marshal x) st ;; each l' st
    end.

(** The loop over the keys of a map: [arrVal] of the key, then of its value. *)
Definition each_entry (marshal : value -> option Pool -> M Result)
  : list (value * value) -> locals -> M locals :=
  fix each (l : list (value * value)) (st : locals) : M locals :=
    match l with
    | [] => ret st
    | (k, x) :: l' =>
        st <- arrVal (marshal k) st ;;
        st <- arrVal (marshal x) st ;;
        each l' st
    end.

Fixpoint Any_MarshalRESP (v : value) (pp : option Pool) {struct v} : M Result :=
  let p := get pp in
  match v with
  | VBytes b => BulkString_MarshalRESP (Some p) (of_obytes b)
  | VString s =>
      sc <- append (scratch p) s ;;
      bulkStrFromScratch (set_scratch p sc)
  | VBool b => BulkString_MarshalRESP (Some p) (GLit (bools b))
  | VFloat32 repr | VFloat64 repr =>
      sc <- append (scratch p) repr ;;
      bulkStrFromScratch (set_scratch p sc)
  | VNil => BulkString_MarshalRESP (Some p) GNil
  | VInt i => Int_MarshalRESP (Some p) (anyIntToInt64 i)
  | VError msg => Error_MarshalRESP (Some p) (Some msg)
  | VMarshaler out err => ret (p, (of_obytes out, err))
  | VTextMarshaler out err | VBinaryMarshaler out err =>
      match err with
      | Some e => ret (p, (GNil, Some e))
      | None => BulkString_MarshalRESP (Some p) (of_obytes out)
      end
  | VPtr pointee =>
      (* return Any{Pool: p, I: reflect.Indirect(vv)}.MarshalRESP(): [I] is
         now a reflect.Value, which no case of the type switch takes and whose
         kind is Struct; see [Any_MarshalRESP_pointer]. *)
      could_not_marshal (get (Some p)) "reflect.Value"
  | VReflectValue _ => could_not_marshal p "reflect.Value"
  | VOther ty => could_not_marshal p ty
  | VArray _ => panic "reflect: call of reflect.Value.IsNil on array Value"
  | VSlice None | VMap None =>
      ogBuf <- Buffer_Write (p_buf p) (GLit nilArray) ;;
      restore (p, ogBuf, None)
  | VSlice (Some elems) =>
      st <- arrHeader (p, p_buf p, None) (Z.of_nat (length elems)) ;;
      st <- each_elem Any_MarshalRESP elems st ;;
      restore st
  | VMap (Some entries) =>
      st <- arrHeader (p, p_buf p, None) (Z.of_nat (length entries * 2)) ;;
      st <- each_entry Any_MarshalRESP entries st ;;
      restore st
  end.

(** ** The wire format on lists

    What the codecs are to produce, as plain functions on lists; the store
    plays no part here. *)

Definition line (prefix : bytes) (i : Z) : bytes :=
  prefix ++ strconv.FormatInt i ++ delim.

Definition bulk (b : bytes) : bytes :=
  line bulkStrPrefix (Z.of_nat (length b)) ++ b ++ delim.

Definition bulk_of (b : option bytes) : bytes :=
  match b with None => nilBulkString | Some l => bulk l end.

Definition text_of (E : option bytes) : bytes :=
  match E with Some msg => msg | None => [] end.

Definition is_empty (l : bytes) : bool :=
  match l with [] => true | _ => false end.

(** What a marshaling comes to: the bytes returned, the error, and whether
    the pool's scratch is nil afterwards. *)
Definition outcome : Type := (bytes * option error * bool)%type.

Definition enc_scratch (s : bytes) (sn : bool) : res outcome :=
  let sn' := sn && is_empty s in
  Ok (if sn' then nilBulkString else bulk s, None, sn').

Definition kept (o : bytes) (e : option error) : bytes :=
  match e with None => o | Some _ => [] end.

(** The outputs of the elements of a container, one after the other: [os]
    holds what each element before left in the output, [e] is the error of the
    last one, [sn] says whether the scratch is nil. *)
Definition progress : Type := (list bytes * option error * bool)%type.

Definition enc_step (f : bool -> res outcome) (st : res progress) : res progress :=
  match st with
  | Panic s => Panic s
  | Ok (os, _, sn) =>
      match f sn with
      | Panic s => Panic s
      | Ok (o, e, sn1) => Ok (os ++ [kept o e], e, sn1)
      end
  end.

Definition enc_elems (f : value -> bool -> res outcome)
  : list value -> res progress -> res progress :=
  fix each (l : list value) (st : res progress) : res progress :=
    match l with
    | [] => st
    | x :: l' => each l' (enc_step (f x) st)
    end.

Definition enc_entries (f : value -> bool -> res outcome)
  : list (value * value) -> res progress -> res progress :=
  fix each (l : list (value * value)) (st : res progress) : res progress :=
    match l with
    | [] => st
    | (k, x) :: l' => each l' (enc_step (f x) (enc_step (f k) st))
    end.

Definition enc_array (n : nat) (st : res progress) : res outcome :=
  match st with
  | Panic s => Panic s
  | Ok (os, e, sn) => Ok (line arrayPrefix (Z.of_nat n) ++ concat os, e, sn)
  end.

(** What [Any.MarshalRESP] returns for [v]; [sn] says whether the pool's
    scratch is nil before the call (an empty string appended to a nil scratch
    leaves it nil, and a nil [B] is the nil bulk string).  The element of a
    container whose marshaling fails leaves nothing in the output, and the
    error returned for a container is that of its last element. *)
Fixpoint enc (v : value) (sn : bool) {struct v} : res outcome :=
  match v with
  | VBytes b => Ok (bulk_of b, None, sn)
  | VString s | VFloat32 s | VFloat64 s => enc_scratch s sn
  | VBool b => Ok (bulk (bools b), None, sn)
  | VNil => Ok (nilBulkString, None, sn)
  | VInt i => Ok (line intPrefix (anyIntToInt64 i), None, sn)
  | VError msg => Ok (errPrefix ++ msg ++ delim, None, sn)
  | VMarshaler out err => Ok (match out with Some l => l | None => [] end, err, sn)
  | VTextMarshaler out err | VBinaryMarshaler out err =>
      match err with
      | Some e => Ok ([], Some e, sn)
      | None => Ok (bulk_of out, None, sn)
      end
  | VPtr _ | VReflectValue _ => Ok ([], Some (ErrCouldNotMarshal "reflect.Value"), sn)
  | VOther ty => Ok ([], Some (ErrCouldNotMarshal ty), sn)
  | VArray _ => Panic "reflect: call of reflect.Value.IsNil on array Value"
  | VSlice None | VMap None => Ok (nilArray, None, sn)
  | VSlice (Some elems) =>
      enc_array (length elems) (enc_elems enc elems (Ok ([], None, sn)))
  | VMap (Some entries) =>
      enc_array (length entries * 2) (enc_entries enc entries (Ok ([], None, sn)))
  end.

(** ** Well-formed pools and what a call may write *)

Definition wf_slice (m : mem) (s : slice) : Prop :=
  s_arr s < next m /\ s_len s <= s_cap s.

Definition wf_oslice (m : mem) (s : option slice) : Prop :=
  match s with None => True | Some s => wf_slice m s end.

Definition wf_gobytes (m : mem) (g : gobytes) : Prop :=
  match g with GSl s => wf_slice m s | _ => True end.

Definition wf_buffer (m : mem) (b : Buffer) : Prop :=
  wf_oslice m (buf b) /\ off b <= olen (buf b).

(** Two slices in different backing arrays. *)
Definition apart (s1 s2 : option slice) : Prop :=
  match s1, s2 with
  | Some a, Some b => s_arr a <> s_arr b
  | _, _ => True
  end.

Definition wf_pool (m : mem) (p : Pool) : Prop :=
  wf_buffer m (p_buf p) /\ wf_oslice m (scratch p) /\ apart (buf (p_buf p)) (scratch p).

Definition wf_opool (m : mem) (pp : option Pool) : Prop :=
  match pp with None => True | Some p => wf_pool m p end.

(** The unread bytes of a buffer. *)
Definition bufload (m : mem) (b : Buffer) : bytes :=
  match buf b with
  | None => []
  | Some s => loadn m (s_arr s) (s_off s + off b) (s_len s - off b)
  end.

Definition region : Type := nat -> nat -> Prop.

(** [frame A m m']: from [m] to [m'] no cell outside [A] has changed. *)
Definition frame (A : region) (m m' : mem) : Prop :=
  next m <= next m' /\ forall a j, ~ A a j -> cells m' a j = cells m a j.

(** The cells of the array of [s] from the [k]-th element of [s] on. *)
Definition from (s : option slice) (k : nat) : region :=
  fun a j => match s with Some s0 => a = s_arr s0 /\ s_off s0 + k <= j | None => False end.

(** The arrays not allocated in [m]. *)
Definition fresh (m : mem) : region := fun a _ => next m <= a.

(** A slice that is where [old] starts, or in an array allocated since [m]. *)
Definition located (m : mem) (old new : option slice) : Prop :=
  match new with
  | None => True
  | Some s' =>
      next m <= s_arr s' \/
      match old with
      | Some s => s_arr s' = s_arr s /\ s_off s' = s_off s /\ s_cap s' = s_cap s
      | None => False
      end
  end.

Definition obuf (pp : option Pool) : option slice :=
  match pp with Some p => buf (p_buf p) | None => None end.

Definition oscratch (pp : option Pool) : option slice :=
  match pp with Some p => scratch p | None => None end.

(** What a call on the pool [pp] may write, from the store [m] on: arrays not
    yet allocated, the array of the pool's buffer from where the buffer
    starts, the array of its scratch from where the scratch starts. *)
Definition pool_region (m : mem) (pp : option Pool) : region :=
  fun a j => fresh m a j \/ from (obuf pp) 0 a j \/ from (oscratch pp) 0 a j.

(** A slice none of whose elements the call may write. *)
Definition outside (m : mem) (pp : option Pool) (g : gobytes) : Prop :=
  match g with
  | GSl s => forall j, s_off s <= j < s_off s + s_len s -> ~ pool_region m pp (s_arr s) j
  | _ => True
  end.

(** The pool in the middle of a call that began in store [m0] with pool [pp]
    and has written [acc] to the pool's buffer. *)
Definition writing (m0 : mem) (pp : option Pool) (m : mem) (p : Pool) (acc : bytes) : Prop :=
  wf_pool m p /\ off (p_buf p) = 0 /\ bufload m (p_buf p) = acc /\
  frame (pool_region m0 pp) m0 m /\
  located m0 (obuf pp) (buf (p_buf p)) /\
  located m0 (oscratch pp) (scratch p).

(** What a marshaling that began in store [m] with pool [pp] has to leave
    behind: the slice [g] it returns holds [out], the pool [p'] it leaves is
    well formed, it wrote nowhere but in [pool_region m pp], its buffer and
    scratch are where those of [pp] start or in new arrays, and the scratch is
    nil iff [sn]. *)
Definition marshal_post (m : mem) (pp : option Pool) (out : bytes) (sn : bool)
  (p' : Pool) (g : gobytes) (m' : mem) : Prop :=
  wf_pool m' p' /\
  wf_gobytes m' g /\ content m' g = out /\
  frame (pool_region m pp) m m' /\
  located m (obuf pp) (buf (p_buf p')) /\
  located m (oscratch pp) (scratch p') /\
  is_nil (of_oslice (scratch p')) = sn.

(** [marshals c m pp out err sn]: the marshaling [c] returns, with error
    [err] and as [marshal_post] says. *)
Definition marshals (c : M Result) (m : mem) (pp : option Pool)
  (out : bytes) (err : option error) (sn : bool) : Prop :=
  exists p' g m',
    c m = Ok ((p', (g, err)), m') /\ marshal_post m pp out sn p' g m'.

(** [simulates c m pp r]: the marshaling [c] does what the list model [r]
    says, panic included. *)
Definition simulates (c : M Result) (m : mem) (pp : option Pool) (r : res outcome) : Prop :=
  match r with
  | Ok (out, err, sn) => marshals c m pp out err sn
  | Panic _ => exists s, c m = Panic s
  end.

(** The locals of [Any.MarshalRESP] in the middle of a container, against
    the progress of the list model: [ogBuf] holds the header [hd] and the
    outputs so far. *)
Definition looping (m0 : mem) (pp : option Pool) (hd : bytes)
  (m : mem) (st : locals) (pr : progress) : Prop :=
  let '(p, ogBuf, err) := st in
  let '(os, e, sn) := pr in
  writing m0 pp m (set_buf p ogBuf) (hd ++ concat os) /\
  err = e /\ is_nil (of_oslice (scratch p)) = sn.

(** The values below a container are leaves for the induction on values. *)
Definition is_leaf (v : value) : Prop :=
  match v with
  | VSlice (Some _) | VMap (Some _) => False
  | _ => True
  end.

(** [Any.MarshalRESP] does for [v] what the list model says, in every store
    and with every well-formed pool. *)
Definition Any_simulates (v : value) : Prop :=
  forall m pp, wf_opool m pp ->
    simulates (Any_MarshalRESP v pp) m pp (enc v (is_nil (of_oslice (oscratch pp)))).

(** The pool in the middle of a decoding: well formed, with [data] still to
    be read from its buffer. *)
Definition reading (m : mem) (p : Pool) (data : bytes) : Prop :=
  wf_pool m p /\ bufload m (p_buf p) = data.

(** The frame the five [UnmarshalRESP] methods share: the input goes into the
    pool's buffer, the prefix is checked, and [k] reads the rest; [old] is
    the value the receiver holds when the method is called. *)
Definition decode_frame {A : Type} (pp : option Pool) (b : gobytes) (prefix : bytes)
  (old : A) (k : Pool -> M (Pool * (A * option error))) : M (Pool * (A * option error)) :=
  let p := get pp in
  b1 <- Buffer_Write (p_buf p) b ;;
  '(p, err) <- bufferedPrefix (set_buf p b1) prefix ;;
  match err with
  | Some e => ret (p, (old, Some e))
  | None => k p
  end.

(** What a decoder does with an [input] that does not begin with its prefix
    byte: it returns the prefix error, which names the expected prefix and
    the first byte of the input if there is one, it leaves the destination
    [old] as it was, and only that first byte has been consumed. *)
Definition rejects_prefix {A : Type} (decode : M (Pool * (A * option error)))
  (m : mem) (prefix : bytes) (old : A) (input : bytes) : Prop :=
  exists p' m',
    decode m = Ok ((p', (old, Some (ErrPrefix prefix (firstn 1 input)))), m') /\
    bufload m' (p_buf p') = skipn 1 input.

(** ** Concrete stores and pools, for the claims at concrete inputs *)

(** A runtime that gives a growing slice exactly the room it needs. *)
Definition exact_fit (c n : nat) : nat := n.

(** The store before anything is allocated. *)
Definition empty_mem : mem := mkMem (fun _ _ => x00) 0.

(** A pool whose buffer is empty and has room for 6 bytes. *)
Definition small_mem : mem := allocate empty_mem.
Definition small_pool : Pool := mkPool (mkBuffer (Some (mkSlice 0 0 0 6)) 0) None.


(** A pool in whose buffer a line ends in CR and a byte that is not LF. *)
Definition line_mem : mem := store 0 0 (bs "foo" ++ [CR] ++ bs "Xyz") (allocate empty_mem).
Definition line_pool : Pool := mkPool (mkBuffer (Some (mkSlice 0 0 7 64)) 0) None.

(* ================================================================== *)
(** * Lemmas: the store *)

Unset Implicit Arguments.

Lemma bytes_eqb_eq a b : bytes_eqb a b = true <-> a = b.
Proof.
  unfold bytes_eqb. destruct (list_eq_dec Byte.byte_eq_dec a b); split; congruence.
Qed.

Lemma bytes_eqb_refl a : bytes_eqb a a = true.
Proof. now apply bytes_eqb_eq. Qed.

Lemma bytes_eqb_neq a b : a <> b -> bytes_eqb a b = false.
Proof.
  intros N. destruct (bytes_eqb a b) eqn:E; [apply bytes_eqb_eq in E; contradiction | reflexivity].
Qed.

Lemma bind_Ok {A B} (c : M A) (k : A -> M B) m a m' :
  c m = Ok (a, m') -> bind c k m = k a m'.
Proof. unfold bind. now intros ->. Qed.

Lemma bind_Panic {A B} (c : M A) (k : A -> M B) m s :
  c m = Panic s -> bind c k m = Panic s.
Proof. unfold bind. now intros ->. Qed.

Lemma bind_lift_Ok {A B} (r : res A) (k : A -> M B) m a :
  r = Ok a -> bind (lift r) k m = k a m.
Proof. intros ->. reflexivity. Qed.

Lemma bind_read {B} g (k : bytes -> M B) m : bind (read g) k m = k (content m g) m.
Proof. reflexivity. Qed.

Lemma loadn_length m a o n : length (loadn m a o n) = n.
Proof. unfold loadn. now rewrite length_map, length_seq. Qed.

Lemma loadn_ext m m' a o n :
  (forall j, o <= j < o + n -> cells m' a j = cells m a j) ->
  loadn m' a o n = loadn m a o n.
Proof.
  intros E. unfold loadn. apply map_ext_in. intros k Hk.
  apply in_seq in Hk. apply E. lia.
Qed.

Lemma map_seq_shift {A} (f : nat -> A) d n s :
  map f (seq (s + d) n) = map (fun k => f (d + k)) (seq s n).
Proof.
  revert s. induction n; intros s; simpl; [reflexivity|].
  f_equal; [f_equal; lia|]. apply (IHn (S s)).
Qed.

Lemma loadn_app m a o n1 n2 :
  loadn m a o (n1 + n2) = loadn m a o n1 ++ loadn m a (o + n1) n2.
Proof.
  unfold loadn. rewrite seq_app, map_app. f_equal.
  rewrite (map_seq_shift (fun k => cells m a (o + k)) n1 n2 0).
  apply map_ext. intros k. f_equal. lia.
Qed.

Lemma store_cells_in a pos l m j :
  pos <= j < pos + length l -> cells (store a pos l m) a j = nth (j - pos) l x00.
Proof.
  intros Hj. simpl. rewrite Nat.eqb_refl.
  destruct (pos <=? j) eqn:E1; [|apply Nat.leb_gt in E1; lia].
  destruct (j <? pos + length l) eqn:E2; [reflexivity|apply Nat.ltb_ge in E2; lia].
Qed.

Lemma store_cells_out a pos l m i j :
  i <> a \/ j < pos \/ pos + length l <= j -> cells (store a pos l m) i j = cells m i j.
Proof.
  intros Hj. simpl.
  destruct (i =? a) eqn:E0; [apply Nat.eqb_eq in E0|reflexivity].
  destruct (pos <=? j) eqn:E1; [apply Nat.leb_le in E1|reflexivity].
  destruct (j <? pos + length l) eqn:E2; [apply Nat.ltb_lt in E2; lia|reflexivity].
Qed.

Lemma loadn_store_same m a o l : loadn (store a o l m) a o (length l) = l.
Proof.
  apply nth_ext with (d := x00) (d' := x00); [apply loadn_length|].
  intros k Hk. rewrite loadn_length in Hk. unfold loadn.
  rewrite (nth_indep _ x00 (cells (store a o l m) a (o + 0))) by (now rewrite length_map, length_seq).
  rewrite (map_nth (fun k => cells (store a o l m) a (o + k))), seq_nth by assumption.
  rewrite store_cells_in by lia. f_equal. lia.
Qed.

Lemma loadn_store_other m a pos l a' o n :
  a' <> a \/ o + n <= pos \/ pos + length l <= o ->
  loadn (store a pos l m) a' o n = loadn m a' o n.
Proof.
  intros H. apply loadn_ext. intros j Hj. apply store_cells_out. lia.
Qed.

Lemma content_length m g : length (content m g) = glen g.
Proof. destruct g; simpl; [reflexivity|reflexivity|apply loadn_length]. Qed.

Lemma loadn_0 m a o : loadn m a o 0 = [].
Proof. reflexivity. Qed.

(** ** Frames *)

Lemma frame_refl A m : frame A m m.
Proof. split; [lia|reflexivity]. Qed.

Lemma frame_trans A m1 m2 m3 : frame A m1 m2 -> frame A m2 m3 -> frame A m1 m3.
Proof.
  intros [N1 C1] [N2 C2]. split; [lia|].
  intros a j H. rewrite C2, C1 by assumption. reflexivity.
Qed.

Lemma frame_weaken (A B : region) m m' :
  (forall a j, A a j -> B a j) -> frame A m m' -> frame B m m'.
Proof.
  intros I [N C]. split; [assumption|]. intros a j H. apply C. intros HA. apply H, I, HA.
Qed.

Lemma frame_store (A : region) a pos l m :
  (forall j, pos <= j < pos + length l -> A a j) -> frame A m (store a pos l m).
Proof.
  intros I. split; [simpl; lia|]. intros i j H. apply store_cells_out.
  destruct (Nat.eq_dec i a) as [->|]; [|now left]. right.
  destruct (Nat.lt_ge_cases j pos); [now left|right].
  destruct (Nat.lt_ge_cases j (pos + length l)); [|assumption].
  exfalso. apply H, I. lia.
Qed.

Lemma frame_load A m m' a o n :
  frame A m m' -> (forall j, o <= j < o + n -> ~ A a j) ->
  loadn m' a o n = loadn m a o n.
Proof. intros [_ C] H. apply loadn_ext. intros j Hj. apply C, H, Hj. Qed.

Lemma wf_slice_mono m m' s : next m <= next m' -> wf_slice m s -> wf_slice m' s.
Proof. unfold wf_slice. intros; lia. Qed.

Lemma wf_oslice_mono m m' s : next m <= next m' -> wf_oslice m s -> wf_oslice m' s.
Proof. destruct s; simpl; [apply wf_slice_mono|trivial]. Qed.

Lemma wf_gobytes_mono m m' g : next m <= next m' -> wf_gobytes m g -> wf_gobytes m' g.
Proof. destruct g; simpl; trivial. apply wf_slice_mono. Qed.

Lemma wf_buffer_mono m m' b : next m <= next m' -> wf_buffer m b -> wf_buffer m' b.
Proof. intros N [H1 H2]. split; [eapply wf_oslice_mono; eauto|assumption]. Qed.

Lemma allocate_cells m a j : a < next m -> cells (allocate m) a j = cells m a j.
Proof.
  intros H. simpl. destruct (a =? next m) eqn:E; [apply Nat.eqb_eq in E; lia|reflexivity].
Qed.

Lemma loadn_allocate m a o n : a < next m -> loadn (allocate m) a o n = loadn m a o n.
Proof. intros H. apply loadn_ext. intros. now apply allocate_cells. Qed.

Lemma content_allocate m g : wf_gobytes m g -> content (allocate m) g = content m g.
Proof. destruct g; simpl; try reflexivity. intros [H _]. now apply loadn_allocate. Qed.

Lemma frame_allocate (A : region) m : (forall j, A (next m) j) -> frame A m (allocate m).
Proof.
  intros I. split; [simpl; lia|]. intros a j H. simpl.
  destruct (a =? next m) eqn:E; [apply Nat.eqb_eq in E; subst; exfalso; apply H, I|reflexivity].
Qed.

Lemma next_store a pos l m : next (store a pos l m) = next m.
Proof. reflexivity. Qed.

Lemma next_allocate m : next (allocate m) = S (next m).
Proof. reflexivity. Qed.

Lemma content_store_other m a pos l g :
  (forall s, g = GSl s -> s_arr s <> a \/ s_off s + s_len s <= pos \/ pos + length l <= s_off s) ->
  content (store a pos l m) g = content m g.
Proof.
  destruct g; simpl; try reflexivity. intros H. apply loadn_store_other, H. reflexivity.
Qed.

(** * Lemmas: slices and bytes.Buffer *)

Lemma slice_expr_Some s lo hi :
  lo <= hi -> hi <= s_cap s -> slice_expr (Some s) lo hi = Ok (Some (sub s lo hi)).
Proof.
  intros H1 H2. unfold slice_expr.
  destruct (lo <=? hi) eqn:E1; [|apply Nat.leb_gt in E1; lia].
  destruct (hi <=? s_cap s) eqn:E2; [reflexivity|apply Nat.leb_gt in E2; lia].
Qed.

Lemma sub_0 s hi : sub s 0 hi = mkSlice (s_arr s) (s_off s) hi (s_cap s).
Proof. unfold sub. f_equal; lia. Qed.

Lemma firstn_full {A} (l : list A) n : length l <= n -> firstn n l = l.
Proof. apply firstn_all2. Qed.

Lemma min_same_firstn {A} (l : list A) n : length l = n -> firstn (Nat.min n (length l)) l = l.
Proof. intros <-. rewrite Nat.min_id. apply firstn_all. Qed.

Lemma loadn_store_eq m a o l n : n = length l -> loadn (store a o l m) a o n = l.
Proof. intros ->. apply loadn_store_same. Qed.

Lemma firstn_min_ge {A} (l : list A) n : length l <= n -> firstn (Nat.min n (length l)) l = l.
Proof. intros H. rewrite Nat.min_r by assumption. apply firstn_all. Qed.

Lemma content_store_fresh m pos l g :
  wf_gobytes m g -> content (store (next m) pos l (allocate m)) g = content m g.
Proof.
  intros W. rewrite content_store_other; [now apply content_allocate|].
  intros s ->. simpl in W. destruct W. left. simpl. lia.
Qed.

Lemma Buffer_Write_spec m b p :
  wf_buffer m b -> off b = 0 -> wf_gobytes m p ->
  exists b' m', Buffer_Write b p m = Ok (b', m') /\
    wf_buffer m' b' /\ off b' = 0 /\
    bufload m' b' = bufload m b ++ content m p /\
    frame (fun a j => fresh m a j \/ from (buf b) (olen (buf b)) a j) m m' /\
    located m (buf b) (buf b').
Proof.
  destruct b as [[s|] o]; intros [W1 W2] Ho Wp; simpl in *; subst o.
  - unfold Buffer_Write, tryGrowByReslice. simpl.
    pose proof (content_length m p) as Lp.
    destruct W1 as [Wa Wl].
    destruct (glen p <=? s_cap s - s_len s) eqn:E.
    + apply Nat.leb_le in E.
      do 2 eexists. split.
      { cbv [bind ret lift read copy write_at]. cbn [buf olen s_len sub].
        rewrite slice_expr_Some by (cbn; lia). cbn [sub s_arr s_off s_len s_cap].
        reflexivity. }
      replace (s_off s + 0 + s_len s) with (s_off s + s_len s) by lia.
      rewrite min_same_firstn by lia.
      split; [|split; [|split; [|split]]].
      * split; simpl; [split; simpl; lia | lia].
      * reflexivity.
      * unfold bufload. cbn [buf off sub s_arr s_off s_len].
        rewrite !Nat.add_0_r, !Nat.sub_0_r. rewrite <- Lp, loadn_app. f_equal.
        -- apply loadn_store_other. lia.
        -- apply loadn_store_same.
      * apply frame_store. intros j Hj. right. lia.
      * simpl. right. repeat split; lia.
    + apply Nat.leb_gt in E.
      unfold Buffer_grow, tryGrowByReslice. simpl.
      rewrite andb_false_r. simpl.
      assert (E' : (glen p <=? s_cap s - s_len s) = false) by (apply Nat.leb_gt; lia).
      rewrite E'.
      assert (Z : (Z.of_nat (glen p) <=? Z.of_nat (s_cap s) / 2 - Z.of_nat (s_len s - 0))%Z = false).
      { apply Z.leb_gt.
        assert (Z.of_nat (s_cap s) / 2 <= Z.of_nat (s_cap s))%Z by (apply Z.div_le_upper_bound; lia).
        lia. }
      change (Buffer_Len {| buf := Some s; off := 0 |}) with (s_len s - 0).
      rewrite Z. clear Z.
      assert (Ec : (s_len s <=? s_cap s) = true) by (apply Nat.leb_le; lia). rewrite Ec.
      set (c := if s_len (sub s 0 (s_len s)) + glen p <? 2 * s_cap (sub s 0 (s_len s))
                then 2 * s_cap (sub s 0 (s_len s)) else s_len (sub s 0 (s_len s)) + glen p).
      assert (Hc : s_len s + glen p <= c).
      { subst c. cbn [sub s_len s_cap]. destruct (_ <? _) eqn:X; [apply Nat.ltb_lt in X|]; lia. }
      pose proof (growcap_ge 0 c) as Hg.
      do 2 eexists. split.
      { cbv [bind ret lift read copy write_at make growSlice]. cbn [olen ocap of_oslice].
        fold c. rewrite slice_expr_Some by (cbn; lia).
        rewrite slice_expr_Some by (cbn; lia).
        cbn [buf olen sub s_len s_arr s_off s_cap].
        rewrite slice_expr_Some by (cbn; lia).
        cbn [buf olen sub s_len s_arr s_off s_cap].
        reflexivity. }
      assert (Eold : content (allocate m) (GSl (sub s 0 (s_len s))) = loadn m (s_arr s) (s_off s) (s_len s)).
      { rewrite content_allocate by (simpl; split; simpl; lia). simpl. unfold load.
        cbn [sub s_arr s_off s_len]. now rewrite Nat.add_0_r, Nat.sub_0_r. }
      rewrite Eold. clear Eold. set (old := loadn m (s_arr s) (s_off s) (s_len s)).
      assert (Lold : length old = s_len s) by apply loadn_length.
      rewrite (firstn_min_ge old) by lia.
      rewrite (content_store_fresh m 0 old p Wp).
      replace (0 + 0 + 0 + (s_len s - 0)) with (s_len s) by lia.
      rewrite min_same_firstn by lia.
      split; [|split; [|split; [|split]]].
      * split; simpl; [split; simpl; lia | lia].
      * reflexivity.
      * unfold bufload. cbn [buf off sub s_arr s_off s_len].
        rewrite !Nat.add_0_r, !Nat.sub_0_r. fold old. rewrite <- Lp at 1. rewrite loadn_app. f_equal.
        -- rewrite loadn_store_other by lia. rewrite <- Lold. apply loadn_store_same.
        -- simpl. apply loadn_store_same.
      * eapply frame_trans; [apply frame_allocate; intros; left; unfold fresh; lia|].
        eapply frame_trans; apply frame_store; intros; left; unfold fresh; lia.
      * simpl. left. lia.
  - unfold Buffer_Write, tryGrowByReslice. simpl.
    pose proof (content_length m p) as Lp.
    destruct (glen p <=? 0) eqn:E.
    + apply Nat.leb_le in E.
      assert (Ep : content m p = []) by (apply length_zero_iff_nil; lia).
      exists {| buf := None; off := 0 |}, m. rewrite Ep.
      split; [reflexivity|]. repeat split; simpl; auto.
    + apply Nat.leb_gt in E.
      unfold Buffer_grow, tryGrowByReslice. simpl.
      assert (E' : (glen p <=? 0) = false) by (apply Nat.leb_gt; lia). rewrite ?E'.
      destruct (glen p <=? smallBufferSize) eqn:S.
      * apply Nat.leb_le in S. do 2 eexists. split.
        { cbv [bind ret lift read copy write_at make]. cbn [buf olen s_len].
          rewrite slice_expr_Some by (cbn; unfold smallBufferSize in *; lia).
          cbn [sub s_arr s_off s_len s_cap]. reflexivity. }
        rewrite (content_allocate m p Wp).
        replace (0 + 0) with 0 by lia. rewrite Nat.sub_0_r, min_same_firstn by lia.
        split; [|split; [|split; [|split]]].
        -- split; simpl; [split; simpl; unfold smallBufferSize in *; lia | lia].
        -- reflexivity.
        -- unfold bufload. cbn [buf off sub s_arr s_off s_len].
           rewrite !Nat.add_0_r, !Nat.sub_0_r. apply loadn_store_eq. lia.
        -- eapply frame_trans; [apply frame_allocate; intros; left; unfold fresh; lia|].
           apply frame_store; intros; left; unfold fresh; lia.
        -- simpl. left. lia.
      * apply Nat.leb_gt in S.
        assert (Z : (Z.of_nat (glen p) <=? 0)%Z = false) by (apply Z.leb_gt; lia).
        rewrite Z. clear Z.
        pose proof (growcap_ge 0 (glen p)) as Hg.
        do 2 eexists. split.
        { cbv [bind ret lift read copy write_at make growSlice]. cbn [olen ocap of_oslice content].
          cbn [Nat.add Nat.mul Nat.ltb Nat.leb].
          rewrite slice_expr_Some by (cbn; lia).
          rewrite slice_expr_Some by (cbn; lia).
          cbn [buf olen sub s_len s_arr s_off s_cap].
          rewrite slice_expr_Some by (cbn; lia).
          cbn [buf olen sub s_len s_arr s_off s_cap].
          reflexivity. }
        change (Buffer_Len {| buf := None; off := 0 |}) with 0.
        rewrite (content_store_fresh m 0 _ p Wp).
        replace (0 + 0 + 0 + 0) with 0 by lia. rewrite !Nat.sub_0_r, min_same_firstn by lia.
        split; [|split; [|split; [|split]]].
        -- split; simpl; [split; simpl; lia | lia].
        -- reflexivity.
        -- unfold bufload. cbn [buf off sub s_arr s_off s_len].
           rewrite !Nat.add_0_r, !Nat.sub_0_r. apply loadn_store_eq. lia.
        -- eapply frame_trans; [apply frame_allocate; intros; left; unfold fresh; lia|].
           eapply frame_trans; apply frame_store; intros; left; unfold fresh; simpl; lia.
        -- simpl. left. lia.
Qed.

Lemma firstn_seq_min k s n : firstn k (seq s n) = seq s (Nat.min k n).
Proof.
  revert s n. induction k; intros s n; simpl; [reflexivity|].
  destruct n; simpl; [reflexivity|]. now rewrite IHk.
Qed.

Lemma firstn_loadn m a o n k : firstn k (loadn m a o n) = loadn m a o (Nat.min k n).
Proof. unfold loadn. now rewrite firstn_map, firstn_seq_min. Qed.

Lemma skipn_loadn m a o n k : skipn k (loadn m a o n) = loadn m a (o + k) (n - k).
Proof.
  unfold loadn. rewrite skipn_map, skipn_seq.
  rewrite (map_seq_shift (fun j => cells m a (o + j)) k (n - k) 0).
  apply map_ext. intros j. f_equal. lia.
Qed.

Lemma Buffer_Bytes_spec m b :
  wf_buffer m b ->
  exists r, Buffer_Bytes b = Ok r /\ wf_oslice m r /\
            content m (of_oslice r) = bufload m b /\
            r = option_map (fun s => sub s (off b) (s_len s)) (buf b).
Proof.
  destruct b as [[s|] o]; intros [W1 W2]; simpl in *.
  - destruct W1. unfold Buffer_Bytes. cbn [buf off olen]. rewrite slice_expr_Some by lia.
    eexists. split; [reflexivity|]. split; [split; simpl; lia|]. split; reflexivity.
  - assert (o = 0) by lia. subst. exists None. repeat split.
Qed.

Lemma Buffer_Reset_wf m b : wf_buffer m b -> wf_buffer m (Buffer_Reset b).
Proof.
  destruct b as [[s|] o]; intros [W1 W2]; simpl in *; split; simpl; auto.
  destruct W1. split; simpl; lia.
Qed.

Lemma Buffer_Reset_load m b : bufload m (Buffer_Reset b) = [].
Proof. destruct b as [[s|] o]; reflexivity. Qed.

Lemma Buffer_Reset_off b : off (Buffer_Reset b) = 0.
Proof. reflexivity. Qed.

Lemma Buffer_Next_spec m b n :
  wf_buffer m b -> (0 <= n)%Z ->
  exists b' d, Buffer_Next b n = Ok (b', d) /\
    wf_buffer m b' /\ wf_oslice m d /\
    content m (of_oslice d) = firstn (Z.to_nat n) (bufload m b) /\
    bufload m b' = skipn (Z.to_nat n) (bufload m b) /\
    buf b' = buf b.
Proof.
  intros [W1 W2] Hn. unfold Buffer_Next.
  set (k := Z.to_nat (if (n >? Z.of_nat (Buffer_Len b))%Z then Z.of_nat (Buffer_Len b) else n)).
  assert (Hk : k = Nat.min (Z.to_nat n) (Buffer_Len b)).
  { subst k. destruct (n >? _)%Z eqn:E; lia. }
  assert (Hneg : ((if (n >? Z.of_nat (Buffer_Len b))%Z then Z.of_nat (Buffer_Len b) else n) <? 0)%Z = false).
  { apply Z.ltb_ge. destruct (n >? _)%Z; lia. }
  rewrite Hneg. clearbody k. clear Hneg.
  destruct b as [[s|] o]; unfold Buffer_Len in *; cbn [buf off olen wf_oslice] in *.
  - destruct W1. rewrite slice_expr_Some by lia.
    do 2 eexists. split; [reflexivity|].
    split; [split; simpl; [split; lia|lia]|].
    split; [split; simpl; lia|].
    unfold bufload; simpl. rewrite firstn_loadn, skipn_loadn.
    split; [unfold load; simpl; f_equal; lia|]. split; [|reflexivity].
    destruct (Nat.le_gt_cases (Z.to_nat n) (s_len s - o)).
    + f_equal; lia.
    + replace (s_len s - (o + k)) with 0 by lia. replace (s_len s - o - Z.to_nat n) with 0 by lia.
      reflexivity.
  - assert (o = 0) by lia. subst o. replace k with 0 by lia. simpl.
    exists {| buf := None; off := 0 |}, None. unfold bufload. simpl.
    rewrite firstn_nil, skipn_nil. repeat split; simpl; auto.
Qed.

Lemma Buffer_ReadByte_some m b c rest :
  wf_buffer m b -> bufload m b = c :: rest ->
  exists b', Buffer_ReadByte b m = Ok ((b', (c, None)), m) /\
    wf_buffer m b' /\ bufload m b' = rest /\ buf b' = buf b.
Proof.
  destruct b as [[s|] o]; intros [W1 W2] L; unfold bufload in *; simpl in *; [|discriminate].
  assert (Hlen : s_len s - o = S (length rest)).
  { rewrite <- (loadn_length m (s_arr s) (s_off s + o) (s_len s - o)), L. reflexivity. }
  unfold Buffer_ReadByte, Buffer_empty. simpl.
  destruct (s_len s <=? o) eqn:E; [apply Nat.leb_le in E; lia|].
  eexists. split; [|split; [|split]].
  - f_equal. f_equal. f_equal. f_equal.
    rewrite Hlen in L. simpl in L. injection L as L _. now rewrite Nat.add_0_r in L.
  - destruct W1. split; simpl; [split; lia|lia].
  - simpl. pose proof (skipn_loadn m (s_arr s) (s_off s + o) (s_len s - o) 1) as K.
    rewrite L in K. simpl in K. rewrite K. f_equal; lia.
  - reflexivity.
Qed.

Lemma Buffer_ReadByte_empty m b :
  wf_buffer m b -> bufload m b = [] ->
  Buffer_ReadByte b m = Ok ((Buffer_Reset b, (x00, Some EOF)), m).
Proof.
  destruct b as [[s|] o]; intros [W1 W2] L; unfold bufload in *; simpl in *.
  - assert (Hlen : s_len s - o = 0).
    { rewrite <- (loadn_length m (s_arr s) (s_off s + o) (s_len s - o)), L. reflexivity. }
    unfold Buffer_ReadByte, Buffer_empty. simpl.
    destruct (s_len s <=? o) eqn:E; [reflexivity|apply Nat.leb_gt in E; lia].
  - unfold Buffer_ReadByte, Buffer_empty. simpl. reflexivity.
Qed.

(** The built-in append. *)
Lemma append_spec m s data :
  wf_oslice m s ->
  exists s' m', append s data m = Ok (s', m') /\
    wf_oslice m' s' /\
    content m' (of_oslice s') = content m (of_oslice s) ++ data /\
    frame (fun a j => fresh m a j \/ from s (olen s) a j) m m' /\
    located m s s' /\
    olen s' = olen s + length data /\
    (s' = None <-> s = None /\ data = []).
Proof.
  intros W. destruct (list_eq_dec Byte.byte_eq_dec data []) as [->|Hne].
  - exists s, m. simpl. rewrite app_nil_r. split; [reflexivity|].
    split; [assumption|]. split; [reflexivity|]. split; [apply frame_refl|].
    split; [destruct s; simpl; auto|]. split; [lia|]. split; [intros ->; auto|now intros [-> _]].
  - assert (Happ : append s data =
      let n := olen s + length data in
      match s with
      | Some s0 =>
          if n <=? s_cap s0 then
            _ <- write_at (s_arr s0) (s_off s0 + s_len s0) data ;;
            ret (Some (mkSlice (s_arr s0) (s_off s0) n (s_cap s0)))
          else
            old <- read (GSl s0) ;;
            s' <- make n (growcap (s_cap s0) n) ;;
            _ <- write_at (s_arr s') 0 (old ++ data) ;;
            ret (Some s')
      | None =>
          s' <- make n (growcap 0 n) ;;
          _ <- write_at (s_arr s') 0 data ;;
          ret (Some s')
      end) by (destruct data; [congruence|reflexivity]).
    rewrite Happ. clear Happ. cbv zeta.
    destruct s as [s|]; cbn [olen].
    + destruct W as [Wa Wl]. destruct (s_len s + length data <=? s_cap s) eqn:E.
      * apply Nat.leb_le in E. do 2 eexists. split; [reflexivity|].
 split; [split; simpl; lia|]. split.
        { simpl. unfold load. simpl. rewrite loadn_app. f_equal.
          - apply loadn_store_other. lia.
          - apply loadn_store_same. }
        split; [apply frame_store; intros; right; simpl; lia|].
        split; [simpl; right; auto|]. split; [reflexivity|].
        split; [discriminate|intros [? _]; discriminate].
      * apply Nat.leb_gt in E.
        pose proof (growcap_ge (s_cap s) (s_len s + length data)) as Hg.
        do 2 eexists. split; [reflexivity|].
        split; [split; simpl; lia|]. split.
        { simpl. unfold load. simpl. apply loadn_store_eq.
          rewrite length_app, loadn_length. reflexivity. }
        split; [eapply frame_trans; [apply frame_allocate|apply frame_store]; intros; left; unfold fresh; simpl; lia|].
        split; [simpl; left; lia|]. split; [reflexivity|].
        split; [discriminate|intros [? _]; discriminate].
    + pose proof (growcap_ge 0 (length data)) as Hg. cbn [Nat.add].
      do 2 eexists. split; [reflexivity|].
      split; [split; simpl; lia|]. split.
      { simpl. unfold load. simpl. apply loadn_store_eq. reflexivity. }
      split; [eapply frame_trans; [apply frame_allocate|apply frame_store]; intros; left; unfold fresh; simpl; lia|].
      split; [simpl; left; lia|]. split; [reflexivity|].
      split; [discriminate|intros [_ ?]; congruence].
Qed.

(** * Lemmas: the pool while a codec writes *)

Lemma located_refl m s : located m s s.
Proof. destruct s; simpl; auto. Qed.

Lemma located_trans m0 m1 a b c :
  next m0 <= next m1 -> located m0 a b -> located m1 b c -> located m0 a c.
Proof.
  intros N H1 H2. destruct c as [c|]; simpl in *; [|trivial].
  destruct H2 as [H2|H2]; [left; lia|].
  destruct b as [b|]; [|contradiction]. simpl in H1.
  destruct H2 as (E1 & E2 & E3). rewrite E1, E2, E3. assumption.
Qed.

Lemma located_region m0 m1 old cur k a j :
  next m0 <= next m1 -> located m0 old cur ->
  fresh m1 a j \/ from cur k a j -> fresh m0 a j \/ from old 0 a j.
Proof.
  unfold fresh. intros N L [H|H]; [left; lia|].
  destruct cur as [c|]; simpl in *; [|contradiction].
  destruct H as [-> H]. destruct L as [L|L]; [left; assumption|].
  destruct old as [o|]; [|contradiction]. destruct L as (E1 & E2 & E3).
  right. simpl. split; [assumption|lia].
Qed.

Lemma located_apart m s1 s1' s2 :
  wf_oslice m s2 -> apart s1 s2 -> located m s1 s1' -> apart s1' s2.
Proof.
  destruct s1' as [a|], s2 as [b|]; simpl; auto.
  intros [W _] A [L|L]; [lia|].
  destruct s1 as [c|]; [|contradiction]. destruct L as (E & _). rewrite E. exact A.
Qed.

Lemma apart_sym a b : apart a b -> apart b a.
Proof. destruct a, b; simpl; auto. Qed.

Lemma get_wf m pp : wf_opool m pp -> wf_pool m (get pp).
Proof.
  destruct pp as [[[b o] sc]|]; simpl.
  - intros (Wb & Ws & A). split; [apply Buffer_Reset_wf, Wb|]. split.
    + destruct sc as [s|]; simpl in *; [|trivial]. destruct Ws. split; simpl; lia.
    + destruct b, sc; simpl in *; auto.
  - intros _. repeat split; simpl; auto.
Qed.

Lemma get_located m pp :
  located m (obuf pp) (buf (p_buf (get pp))) /\ located m (oscratch pp) (scratch (get pp)).
Proof.
  destruct pp as [p|]; simpl; [|auto]. split.
  - destruct (buf (p_buf p)); simpl; [right; repeat split; lia|trivial].
  - destruct (scratch p); simpl; [right; repeat split; lia|trivial].
Qed.

Lemma get_scratch_nil pp :
  is_nil (of_oslice (scratch (get pp))) = is_nil (of_oslice (oscratch pp)).
Proof. destruct pp as [p|]; simpl; [destruct (scratch p)|]; reflexivity. Qed.

Lemma get_scratch_len pp : olen (scratch (get pp)) = 0.
Proof. destruct pp as [p|]; simpl; [destruct (scratch p)|]; reflexivity. Qed.

Lemma writing_get m pp : wf_opool m pp -> writing m pp m (get pp) [].
Proof.
  intros W. split; [apply get_wf, W|]. split; [destruct pp; reflexivity|].
  split; [destruct pp as [p|]; simpl; [apply Buffer_Reset_load|reflexivity]|].
  split; [apply frame_refl|]. apply get_located.
Qed.

Lemma writing_next m0 pp m p acc : writing m0 pp m p acc -> next m0 <= next m.
Proof. intros (_ & _ & _ & [N _] & _). exact N. Qed.

Lemma writing_Write m0 pp m p acc g :
  writing m0 pp m p acc -> wf_gobytes m g ->
  exists b' m', Buffer_Write (p_buf p) g m = Ok (b', m') /\
    writing m0 pp m' (set_buf p b') (acc ++ content m g) /\
    frame (fun a j => fresh m a j \/ from (buf (p_buf p)) (olen (buf (p_buf p))) a j) m m'.
Proof.
  intros ((Wb & Ws & A) & O & L & F & Lb & Lsc) Wg.
  destruct (Buffer_Write_spec _ _ _ Wb O Wg) as (b' & m' & E & Wb' & O' & L' & F' & Lb').
  exists b', m'. split; [exact E|]. split; [|exact F'].
  pose proof F as [N0 _]. pose proof F' as [N1 _].
  split; [|split; [exact O'|split; [simpl; now rewrite L', L|split; [|split]]]].
  - split; [exact Wb'|]. split; [eapply wf_oslice_mono; eauto|].
    simpl. eapply located_apart; eauto.
  - eapply frame_trans; [exact F|]. eapply frame_weaken; [|exact F'].
    intros a j H. unfold pool_region.
    destruct (located_region _ _ _ _ _ _ _ N0 Lb H) as [?|?]; auto.
  - simpl. eapply located_trans; eauto.
  - exact Lsc.
Qed.

Lemma bufload_frame (A : region) m m' b :
  frame A m m' ->
  (forall s j, buf b = Some s -> s_off s + off b <= j < s_off s + s_len s -> ~ A (s_arr s) j) ->
  bufload m' b = bufload m b.
Proof.
  intros F H. unfold bufload. destruct (buf b) as [s|]; [|reflexivity].
  eapply frame_load; [exact F|]. intros j Hj. apply (H s j eq_refl). lia.
Qed.

Lemma writing_append m0 pp m p acc data :
  writing m0 pp m p acc ->
  exists s' m', append (scratch p) data m = Ok (s', m') /\
    writing m0 pp m' (set_scratch p s') acc /\
    writing m0 pp m' p acc /\
    wf_oslice m' s' /\
    content m' (of_oslice s') = content m (of_oslice (scratch p)) ++ data /\
    olen s' = olen (scratch p) + length data /\
    (s' = None <-> scratch p = None /\ data = []) /\
    frame (fun a j => fresh m a j \/ from (scratch p) (olen (scratch p)) a j) m m'.
Proof.
  intros ((Wb & Ws & A) & O & L & F & Lb & Lsc).
  destruct (append_spec _ _ data Ws) as (s' & m' & E & Ws' & C & F' & Ls' & Len & Nil).
  exists s', m'. split; [exact E|].
  pose proof F as [N0 _]. pose proof F' as [N1 _].
  assert (Fr : frame (pool_region m0 pp) m0 m').
  { eapply frame_trans; [exact F|]. eapply frame_weaken; [|exact F'].
    intros a j H. unfold pool_region.
    destruct (located_region _ _ _ _ _ _ _ N0 Lsc H) as [?|?]; auto. }
  assert (Lo : bufload m' (p_buf p) = acc).
  { rewrite <- L. eapply bufload_frame; [exact F'|].
    intros s j Es _ [H|H].
    - unfold fresh in H. pose proof Wb as [Wb1 _]. rewrite Es in Wb1. destruct Wb1. lia.
    - destruct (scratch p) as [sc|]; simpl in H; [|contradiction].
      rewrite Es in A. simpl in A. destruct H. congruence. }
  split; [|split; [|split; [exact Ws'|split; [exact C|split; [exact Len|split; [exact Nil|exact F']]]]]].
  - split; [|split; [exact O|split; [exact Lo|split; [exact Fr|split; [exact Lb|]]]]].
    + split; [eapply wf_buffer_mono; eauto|]. split; [exact Ws'|].
      simpl. apply apart_sym. eapply located_apart; [..|exact Ls']; [apply Wb|apply apart_sym, A].
    + simpl. eapply located_trans; eauto.
  - split; [|split; [exact O|split; [exact Lo|split; [exact Fr|split; [exact Lb|exact Lsc]]]]].
    split; [eapply wf_buffer_mono; eauto|]. split; [eapply wf_oslice_mono; eauto|exact A].
Qed.

Lemma content_len0 m s : olen s = 0 -> content m (of_oslice s) = [].
Proof.
  destruct s as [s|]; simpl; [|reflexivity]. intros E. unfold load. now rewrite E.
Qed.

Lemma writing_outside m0 pp m p acc g :
  writing m0 pp m p acc -> wf_gobytes m0 g -> outside m0 pp g ->
  wf_gobytes m g /\ content m g = content m0 g.
Proof.
  intros (_ & _ & _ & F & _) W O. pose proof F as [N _].
  split; [eapply wf_gobytes_mono; eauto|].
  destruct g as [|l|s]; simpl; try reflexivity.
  eapply frame_load; [exact F|]. exact O.
Qed.

Lemma writing_done m0 pp m p acc :
  writing m0 pp m p acc ->
  exists r, Buffer_Bytes (p_buf p) = Ok r /\
    marshal_post m0 pp acc (is_nil (of_oslice (scratch p))) p (of_oslice r) m.
Proof.
  intros ((Wb & Ws & A) & O & L & F & Lb & Lsc).
  destruct (Buffer_Bytes_spec _ _ Wb) as (r & E & Wr & C & _).
  exists r. split; [exact E|].
  split; [exact (conj Wb (conj Ws A))|].
  split; [destruct r; exact Wr|]. split; [now rewrite C|].
  split; [exact F|]. split; [exact Lb|]. split; [exact Lsc|reflexivity].
Qed.

Lemma marshal_post_rebase m0 pp0 m1 pp1 out sn p' g m' :
  frame (pool_region m0 pp0) m0 m1 ->
  located m0 (obuf pp0) (obuf pp1) -> located m0 (oscratch pp0) (oscratch pp1) ->
  marshal_post m1 pp1 out sn p' g m' -> marshal_post m0 pp0 out sn p' g m'.
Proof.
  intros F Lb Ls (W & Wg & C & F' & Lb' & Ls' & N). pose proof F as [N0 _].
  split; [exact W|]. split; [exact Wg|]. split; [exact C|]. split; [|split; [|split]].
  - eapply frame_trans; [exact F|]. eapply frame_weaken; [|exact F'].
    intros a j [H|[H|H]]; unfold pool_region.
    + left. unfold fresh in *. lia.
    + destruct (located_region _ _ _ _ 0 a j N0 Lb (or_intror H)); auto.
    + destruct (located_region _ _ _ _ 0 a j N0 Ls (or_intror H)); auto.
  - eapply located_trans; eauto.
  - eapply located_trans; eauto.
  - exact N.
Qed.

Lemma marshals_rebase (c : M Result) m pp pp1 out err sn :
  located m (obuf pp) (obuf pp1) -> located m (oscratch pp) (oscratch pp1) ->
  marshals c m pp1 out err sn -> marshals c m pp out err sn.
Proof.
  intros Lb Ls (p' & g & m' & E & P). exists p', g, m'. split; [exact E|].
  eapply marshal_post_rebase; eauto. apply frame_refl.
Qed.

(** Running a codec step by step. *)
Ltac step E := rewrite (bind_Ok _ _ _ _ _ E); cbv beta.

Lemma line_marshals m pp prefix i (c : M Result) :
  wf_opool m pp ->
  c = (let p := get pp in
       b <- Buffer_Write (p_buf p) (GLit prefix) ;;
       digits <- append (scratch p) (strconv.FormatInt i) ;;
       b <- Buffer_Write b (of_oslice digits) ;;
       b <- Buffer_Write b (GLit delim) ;;
       r <- lift (Buffer_Bytes b) ;;
       ret (set_buf p b, (of_oslice r, None))) ->
  marshals c m pp (line prefix i) None (is_nil (of_oslice (oscratch pp))).
Proof.
  intros W ->. pose proof (writing_get _ _ W) as H0.
  rewrite <- get_scratch_nil.
  destruct (writing_Write _ _ _ _ _ (GLit prefix) H0 I) as (b1 & m1 & E1 & H1 & _).
  destruct (writing_append _ _ _ _ _ (strconv.FormatInt i) H1) as (d & m2 & E2 & _ & H2 & Wd & Cd & _).
  cbn [set_buf p_buf scratch] in *.
  rewrite (content_len0 m1 (scratch (get pp))) in Cd by apply get_scratch_len. simpl in Cd.
  assert (Wd' : wf_gobytes m2 (of_oslice d)) by (destruct d; exact Wd).
  destruct (writing_Write _ _ _ _ _ (of_oslice d) H2 Wd') as (b3 & m3 & E3 & H3 & _).
  destruct (writing_Write _ _ _ _ _ (GLit delim) H3 I) as (b4 & m4 & E4 & H4 & _).
  cbn [set_buf p_buf scratch] in *.
  destruct (writing_done _ _ _ _ _ H4) as (r & E5 & D).
  cbn [set_buf p_buf scratch] in *.
  assert (Eacc : (([] ++ content m (GLit prefix)) ++ content m2 (of_oslice d)) ++ content m3 (GLit delim)
                 = line prefix i).
  { rewrite Cd. unfold line. simpl. now rewrite <- app_assoc. }
  rewrite Eacc in D. do 3 eexists. split; [|exact D]. cbv zeta.
  step E1. step E2. step E3. step E4.
  unfold lift at 1. rewrite E5. reflexivity.
Qed.

Lemma Int_MarshalRESP_spec m pp i :
  wf_opool m pp ->
  marshals (Int_MarshalRESP pp i) m pp (line intPrefix i) None (is_nil (of_oslice (oscratch pp))).
Proof. intros W. now apply line_marshals. Qed.

Lemma ArrayHeader_MarshalRESP_spec m pp n :
  wf_opool m pp ->
  marshals (ArrayHeader_MarshalRESP pp n) m pp (line arrayPrefix n) None (is_nil (of_oslice (oscratch pp))).
Proof. intros W. now apply line_marshals. Qed.

Lemma untouched_post m pp out :
  wf_opool m pp ->
  marshal_post m pp out (is_nil (of_oslice (oscratch pp))) (untouched pp) (GLit out) m.
Proof.
  intros W. split.
  { destruct pp as [p|]; [exact W|]. repeat split; simpl; auto. }
  split; [exact I|]. split; [reflexivity|]. split; [apply frame_refl|].
  destruct pp as [p|]; simpl; repeat split; auto using located_refl.
Qed.

Lemma BulkString_MarshalRESP_spec m pp B :
  wf_opool m pp -> wf_gobytes m B -> outside m pp B ->
  exists p' g m', BulkString_MarshalRESP pp B m = Ok ((p', (g, None)), m') /\
    marshal_post m pp (if is_nil B then nilBulkString else bulk (content m B))
      (is_nil (of_oslice (oscratch pp))) p' g m' /\
    olen (scratch p') = (if is_nil B then olen (oscratch pp) else 0).
Proof.
  intros W WB OB. unfold BulkString_MarshalRESP. destruct (is_nil B) eqn:EB.
  - do 3 eexists. split; [reflexivity|]. split; [now apply untouched_post|].
    destruct pp; reflexivity.
  - pose proof (writing_get _ _ W) as H0. rewrite <- get_scratch_nil. cbv zeta.
    destruct (writing_Write _ _ _ _ _ (GLit bulkStrPrefix) H0 I) as (b1 & m1 & E1 & H1 & _).
    destruct (writing_append _ _ _ _ _ (strconv.FormatInt (Z.of_nat (glen B))) H1)
      as (d & m2 & E2 & _ & H2 & Wd & Cd & _).
    cbn [set_buf p_buf scratch] in *.
    rewrite (content_len0 m1 (scratch (get pp))) in Cd by apply get_scratch_len. simpl in Cd.
    assert (Wd' : wf_gobytes m2 (of_oslice d)) by (destruct d; exact Wd).
    destruct (writing_Write _ _ _ _ _ (of_oslice d) H2 Wd') as (b3 & m3 & E3 & H3 & _).
    destruct (writing_Write _ _ _ _ _ (GLit delim) H3 I) as (b4 & m4 & E4 & H4 & _).
    cbn [set_buf p_buf scratch] in *.
    destruct (writing_outside _ _ _ _ _ B H4 WB OB) as (WB4 & CB4).
    destruct (writing_Write _ _ _ _ _ B H4 WB4) as (b5 & m5 & E5 & H5 & _).
    destruct (writing_Write _ _ _ _ _ (GLit delim) H5 I) as (b6 & m6 & E6 & H6 & _).
    cbn [set_buf p_buf scratch] in *.
    destruct (writing_done _ _ _ _ _ H6) as (r & E7 & D).
    cbn [set_buf p_buf scratch] in *.
    match type of D with marshal_post _ _ ?acc _ _ _ _ =>
      assert (Eacc : acc = bulk (content m B)) end.
    { rewrite Cd, CB4. unfold bulk, line. rewrite content_length. cbn [content].
      rewrite app_nil_l, <- !app_assoc. reflexivity. }
    rewrite Eacc in D. do 3 eexists. split; [|split; [exact D|apply get_scratch_len]].
    step E1. step E2. step E3. step E4. step E5. step E6.
    unfold lift at 1. rewrite E7. reflexivity.
Qed.

Lemma outside_lit m pp g : is_nil g = true \/ (exists l, g = GLit l) -> outside m pp g.
Proof. intros [H|[l ->]]; [destruct g; try discriminate|]; exact I. Qed.

Lemma SimpleString_MarshalRESP_spec m pp S :
  wf_opool m pp -> wf_gobytes m S -> outside m pp S ->
  marshals (SimpleString_MarshalRESP pp S) m pp
    (simpleStrPrefix ++ content m S ++ delim) None (is_nil (of_oslice (oscratch pp))).
Proof.
  intros W WS OS. pose proof (writing_get _ _ W) as H0. rewrite <- get_scratch_nil.
  unfold SimpleString_MarshalRESP. cbv zeta.
  destruct (writing_Write _ _ _ _ _ (GLit simpleStrPrefix) H0 I) as (b1 & m1 & E1 & H1 & _).
  cbn [set_buf p_buf scratch] in *.
  destruct (writing_outside _ _ _ _ _ S H1 WS OS) as (WS1 & CS1).
  destruct (writing_Write _ _ _ _ _ S H1 WS1) as (b2 & m2 & E2 & H2 & _).
  destruct (writing_Write _ _ _ _ _ (GLit delim) H2 I) as (b3 & m3 & E3 & H3 & _).
  cbn [set_buf p_buf scratch] in *.
  destruct (writing_done _ _ _ _ _ H3) as (r & E4 & D).
  cbn [set_buf p_buf scratch] in *.
  match type of D with marshal_post _ _ ?acc _ _ _ _ =>
    assert (Eacc : acc = simpleStrPrefix ++ content m S ++ delim) end.
  { rewrite CS1. cbn [content]. rewrite app_nil_l, <- !app_assoc. reflexivity. }
  rewrite Eacc in D. do 3 eexists. split; [|exact D].
  step E1. step E2. step E3. unfold lift at 1. rewrite E4. reflexivity.
Qed.

Lemma Error_MarshalRESP_spec m pp E :
  wf_opool m pp ->
  marshals (Error_MarshalRESP pp E) m pp
    (errPrefix ++ text_of E ++ delim) None (is_nil (of_oslice (oscratch pp))).
Proof.
  intros W. pose proof (writing_get _ _ W) as H0. rewrite <- get_scratch_nil.
  unfold Error_MarshalRESP. cbv zeta.
  destruct (writing_Write _ _ _ _ _ (GLit errPrefix) H0 I) as (b1 & m1 & E1 & H1 & _).
  cbn [set_buf p_buf scratch] in *.
  assert (exists b2 m2, match E with Some msg => Buffer_Write b1 (GLit msg) | None => ret b1 end m1
                                   = Ok (b2, m2) /\
            writing m pp m2 (set_buf (get pp) b2) (errPrefix ++ text_of E))
    as (b2 & m2 & E2 & H2).
  { destruct E as [msg|].
    - destruct (writing_Write _ _ _ _ _ (GLit msg) H1 I) as (b2 & m2 & E2 & H2 & _).
      exists b2, m2. split; [exact E2|exact H2].
    - exists b1, m1. split; [reflexivity|]. unfold text_of. rewrite app_nil_r. exact H1. }
  destruct (writing_Write _ _ _ _ _ (GLit delim) H2 I) as (b3 & m3 & E3 & H3 & _).
  cbn [set_buf p_buf scratch] in *.
  destruct (writing_done _ _ _ _ _ H3) as (r & E4 & D).
  cbn [set_buf p_buf scratch] in *.
  rewrite <- app_assoc in D. do 3 eexists. split; [|exact D].
  step E1. step E2. step E3. unfold lift at 1. rewrite E4. reflexivity.
Qed.

Lemma bulkStrFromScratch_spec m p :
  wf_pool m p ->
  marshals (bulkStrFromScratch p) m (Some p)
    (match scratch p with None => nilBulkString | Some s => bulk (load m s) end) None
    (is_nil (of_oslice (scratch p))).
Proof.
  intros (Wb & Ws & A). unfold bulkStrFromScratch.
  set (tail := option_map (fun s => sub s (s_len s) (s_len s)) (scratch p)).
  assert (Et : slice_expr (scratch p) (olen (scratch p)) (olen (scratch p)) = Ok tail).
  { subst tail. destruct (scratch p) as [s|]; simpl in *; [|reflexivity].
    destruct Ws. rewrite Nat.leb_refl. simpl.
    destruct (s_len s <=? s_cap s) eqn:E; [reflexivity|apply Nat.leb_gt in E; lia]. }
  assert (W1 : wf_opool m (Some (set_scratch p tail))).
  { split; [exact Wb|]. split; simpl; subst tail; destruct (scratch p) as [s|]; simpl in *; auto.
    destruct Ws. split; simpl; lia. }
  assert (WB : wf_gobytes m (of_oslice (scratch p))) by (destruct (scratch p); exact Ws).
  assert (OB : outside m (Some (set_scratch p tail)) (of_oslice (scratch p))).
  { subst tail. destruct (scratch p) as [s|] eqn:Es; simpl; [|exact I].
    intros j Hj [H|[H|H]].
    - unfold fresh in H. simpl in Ws. destruct Ws. lia.
    - simpl in H. destruct (buf (p_buf p)) as [b|]; [|exact H]. simpl in A, H. destruct H. congruence.
    - simpl in H. lia. }
  destruct (BulkString_MarshalRESP_spec _ _ _ W1 WB OB) as (p' & g & m' & E & P & L0).
  assert (L0' : olen (scratch p') = 0).
  { rewrite L0. destruct (scratch p) as [s|]; simpl; [reflexivity|]. subst tail. reflexivity. }
  exists (set_scratch p' (scratch p)), g, m'. split.
  { rewrite (bind_lift_Ok _ _ _ _ Et). step E. cbv iota. rewrite bind_read.
    rewrite (content_len0 m' _ L0'). reflexivity. }
  destruct P as ((Wb' & Ws' & A') & Wg & C & F & Lb & Ls & N). pose proof F as [N1 _].
  split; [|split; [exact Wg|split; [|split; [|split; [exact Lb|split; [apply located_refl|reflexivity]]]]]].
  - split; [exact Wb'|]. split; [eapply wf_oslice_mono; eauto|].
    simpl. eapply located_apart; eauto.
  - rewrite C. destruct (scratch p); reflexivity.
  - eapply frame_weaken; [|exact F]. intros a j [H|[H|H]]; unfold pool_region; auto.
    right. right. subst tail. simpl in *. destruct (scratch p) as [s|]; simpl in *; [|exact H]. lia.
Qed.

(** * Lemmas: Any.MarshalRESP against the list model *)

Lemma value_induction (P : value -> Prop) :
  (forall v, is_leaf v -> P v) ->
  (forall l, Forall P l -> P (VSlice (Some l))) ->
  (forall l, Forall (fun kv => P (fst kv) /\ P (snd kv)) l -> P (VMap (Some l))) ->
  forall v, P v.
Proof.
  intros Hleaf Hslice Hmap.
  fix F 1. intros v.
  destruct v as [| | | | | | | | | | | | | [l|] | | [l|] | ];
    try (apply Hleaf; exact I).
  - apply Hslice. induction l as [|x l IH]; constructor; [apply F|exact IH].
  - apply Hmap. induction l as [|[k x] l IH]; constructor; [split; apply F|exact IH].
Qed.

Lemma concat_snoc (os : list bytes) (o : bytes) : concat (os ++ [o]) = concat os ++ o.
Proof. rewrite concat_app. simpl. now rewrite app_nil_r. Qed.

(** The tail of [ogBuf] that [arrVal] hands to the element. *)
Lemma arrVal_tail m ogBuf :
  wf_buffer m ogBuf -> off ogBuf = 0 ->
  exists whole tail,
    Buffer_Bytes ogBuf = Ok whole /\
    slice_expr whole (Buffer_Len ogBuf) (olen whole) = Ok tail /\
    tail = option_map (fun s => mkSlice (s_arr s) (s_off s + s_len s) 0 (s_cap s - s_len s))
             (buf ogBuf).
Proof.
  intros Wb O. destruct (Buffer_Bytes_spec _ _ Wb) as (whole & E & _ & _ & Ew).
  exists whole. unfold Buffer_Len. rewrite O in *.
  destruct ogBuf as [[s|] o]; simpl in *; subst whole o.
  - destruct Wb as [[_ Wl] _]. simpl in Wl.
    eexists. split; [exact E|]. rewrite slice_expr_Some by (simpl; lia).
    split; [reflexivity|]. unfold sub. simpl. f_equal. f_equal; lia.
  - exists None. split; [exact E|]. split; reflexivity.
Qed.

Lemma arrVal_step m0 pp hd m st (pr : progress) (f : option Pool -> M Result) (fe : bool -> res outcome) :
  looping m0 pp hd m st pr ->
  (forall m pp, wf_opool m pp -> simulates (f pp) m pp (fe (is_nil (of_oslice (oscratch pp))))) ->
  match enc_step fe (Ok pr) with
  | Ok pr' => exists st' m', arrVal f st m = Ok (st', m') /\ looping m0 pp hd m' st' pr'
  | Panic _ => exists s, arrVal f st m = Panic s
  end.
Proof.
  destruct st as [[p ogBuf] err]. destruct pr as [[os e0] sn]. intros (H & _ & Hsn) IH.
  destruct H as ((Wb & Ws & A) & O & L & F & Lb & Lsc). cbn [set_buf p_buf scratch] in *.
  destruct (arrVal_tail _ _ Wb O) as (whole & tail & Ew & Et & Etail).
  pose proof Wb as [Wb1 Wb2].
  set (psub := set_buf p (NewBuffer tail)).
  assert (Wsub : wf_opool m (Some psub)).
  { subst psub tail. split; [|split; [exact Ws|]]; simpl.
    - destruct (buf ogBuf) as [s|]; simpl; [|split; simpl; auto].
      destruct Wb1 as [Wa Wl]. split; simpl; [split; simpl; lia|lia].
    - destruct (buf ogBuf) as [s|], (scratch p) as [sc|]; simpl in *; auto. }
  specialize (IH m (Some psub) Wsub). cbn [oscratch psub set_buf scratch] in IH.
  rewrite Hsn in IH. unfold enc_step. unfold arrVal.
  destruct (fe sn) as [[[o e] sn1]|msg]; simpl in IH.
  - destruct IH as (p1 & ib & m1 & E1 & (Wbp1 & Ws1 & A1) & Wib & Cib & F1 & Lb1 & Ls1 & N1).
    pose proof F as [N0 _]. pose proof F1 as [N01 _].
    cbn [obuf oscratch psub set_buf p_buf scratch NewBuffer buf] in *.
    (* what ogBuf held is still there *)
    assert (Hog : writing m0 pp m1 (set_buf p1 ogBuf) (hd ++ concat os)).
    { split; [|split; [exact O|split; [|split; [|split; [exact Lb|]]]]].
      - split; [eapply wf_buffer_mono; eauto|]. split; [exact Ws1|].
        simpl. apply apart_sym. eapply located_apart; [apply Wb|apply apart_sym, A|exact Ls1].
      - simpl. rewrite <- L. eapply bufload_frame; [exact F1|].
        intros s j Es Hj [H|[H|H]].
        + unfold fresh in H. rewrite Es in Wb1. destruct Wb1. lia.
        + subst tail. simpl in H. rewrite Es in H. simpl in H. lia.
        + simpl in H. destruct (scratch p) as [sc|]; [|exact H]. rewrite Es in A. simpl in A, H.
          destruct H. congruence.
      - eapply frame_trans; [exact F|]. eapply frame_weaken; [|exact F1].
        intros a j [H|[H|H]]; unfold pool_region.
        + left. unfold fresh in *. lia.
        + subst tail. simpl in H. destruct (buf ogBuf) as [s|] eqn:Es; [|contradiction].
          simpl in H. destruct H as [-> H].
          destruct (located_region m0 m _ _ 0 (s_arr s) j N0 Lb) as [?|?]; auto.
          right. simpl. split; [reflexivity|lia].
        + destruct (located_region m0 m _ _ 0 a j N0 Lsc (or_intror H)) as [?|?]; auto.
      - simpl. eapply located_trans; eauto. }
    destruct e as [e|].
    + exists (p1, ogBuf, Some e), m1. split.
      { rewrite (bind_lift_Ok _ _ _ _ Ew), (bind_lift_Ok _ _ _ _ Et).
        fold psub. step E1. reflexivity. }
      split; [|split; [reflexivity|exact N1]].
      simpl kept. rewrite concat_snoc, app_nil_r. exact Hog.
    + destruct (writing_Write _ _ _ _ _ ib Hog Wib) as (b' & m2 & E2 & H2 & _).
      cbn [set_buf p_buf scratch] in *.
      exists (p1, b', None), m2. split.
      { rewrite (bind_lift_Ok _ _ _ _ Ew), (bind_lift_Ok _ _ _ _ Et).
        fold psub. step E1. cbv iota. step E2. reflexivity. }
      split; [|split; [reflexivity|exact N1]].
      simpl kept. rewrite concat_snoc, app_assoc, <- Cib. exact H2.
  - destruct IH as (s & E1). exists s.
    rewrite (bind_lift_Ok _ _ _ _ Ew), (bind_lift_Ok _ _ _ _ Et).
    fold psub. apply bind_Panic. exact E1.
Qed.

Lemma enc_elems_Panic f l s : enc_elems f l (Panic s) = Panic s.
Proof. induction l as [|x l IH]; simpl; [reflexivity|exact IH]. Qed.

Lemma enc_entries_Panic f l s : enc_entries f l (Panic s) = Panic s.
Proof. induction l as [|[k x] l IH]; simpl; [reflexivity|exact IH]. Qed.

Lemma each_elem_simulates m0 pp hd l :
  Forall Any_simulates l ->
  forall m st pr, looping m0 pp hd m st pr ->
  match enc_elems enc l (Ok pr) with
  | Ok pr' => exists st' m', each_elem Any_MarshalRESP l st m = Ok (st', m') /\
                             looping m0 pp hd m' st' pr'
  | Panic _ => exists s, each_elem Any_MarshalRESP l st m = Panic s
  end.
Proof.
  induction 1 as [|x l Hx _ IH]; intros m st pr H.
  - simpl. exists st, m. split; [reflexivity|exact H].
  - cbn [enc_elems each_elem].
    pose proof (arrVal_step _ _ _ _ _ _ (Any_MarshalRESP x) (enc x) H Hx) as S.
    destruct (enc_step (enc x) (Ok pr)) as [pr1|msg].
    + destruct S as (st1 & m1 & E1 & H1).
      specialize (IH m1 st1 pr1 H1).
      destruct (enc_elems enc l (Ok pr1)) as [pr2|msg].
      * destruct IH as (st2 & m2 & E2 & H2). cbv iota. exists st2, m2.
        split; [step E1; exact E2|exact H2].
      * destruct IH as (s & E2). cbv iota. exists s. step E1. exact E2.
    + rewrite enc_elems_Panic. destruct S as (s & E1). exists s.
      apply bind_Panic. exact E1.
Qed.

Lemma each_entry_simulates m0 pp hd l :
  Forall (fun kv => Any_simulates (fst kv) /\ Any_simulates (snd kv)) l ->
  forall m st pr, looping m0 pp hd m st pr ->
  match enc_entries enc l (Ok pr) with
  | Ok pr' => exists st' m', each_entry Any_MarshalRESP l st m = Ok (st', m') /\
                             looping m0 pp hd m' st' pr'
  | Panic _ => exists s, each_entry Any_MarshalRESP l st m = Panic s
  end.
Proof.
  induction 1 as [|[k x] l [Hk Hx] _ IH]; intros m st pr H.
  - simpl. exists st, m. split; [reflexivity|exact H].
  - cbn [enc_entries each_entry]. cbn [fst snd] in *.
    pose proof (arrVal_step _ _ _ _ _ _ (Any_MarshalRESP k) (enc k) H Hk) as S.
    destruct (enc_step (enc k) (Ok pr)) as [pr1|msg].
    + destruct S as (st1 & m1 & E1 & H1).
      pose proof (arrVal_step _ _ _ _ _ _ (Any_MarshalRESP x) (enc x) H1 Hx) as S2.
      destruct (enc_step (enc x) (Ok pr1)) as [pr2|msg].
      * destruct S2 as (st2 & m2 & E2 & H2).
        specialize (IH m2 st2 pr2 H2).
        destruct (enc_entries enc l (Ok pr2)) as [pr3|msg].
        -- destruct IH as (st3 & m3 & E3 & H3). cbv iota. exists st3, m3.
           split; [step E1; step E2; exact E3|exact H3].
        -- destruct IH as (s & E3). cbv iota. exists s. step E1. step E2. exact E3.
      * rewrite enc_entries_Panic. destruct S2 as (s & E2). exists s.
        step E1. apply bind_Panic. exact E2.
    + simpl enc_step. rewrite enc_entries_Panic. destruct S as (s & E1). exists s.
      apply bind_Panic. exact E1.
Qed.

Lemma arrHeader_spec m pp n :
  wf_opool m pp ->
  exists st m', arrHeader (get pp, p_buf (get pp), None) n m = Ok (st, m') /\
    looping m pp (line arrayPrefix n) m' st ([], None, is_nil (of_oslice (oscratch pp))).
Proof.
  intros W. pose proof (get_wf _ _ W) as W0.
  destruct (ArrayHeader_MarshalRESP_spec m (Some (get pp)) n W0)
    as (p1 & ahb & m1 & E1 & (Wbp1 & Ws1 & A1) & Wg & C & F1 & Lb1 & Ls1 & N1).
  cbn [obuf oscratch] in *. pose proof F1 as [N01 _].
  destruct (get_located m pp) as [Lb0 Ls0]. destruct W0 as (Wb0 & Ws0 & A0).
  assert (Hog : writing m pp m1 (set_buf p1 (p_buf (get pp))) []).
  { split; [|split; [destruct pp; reflexivity|split; [|split; [|split; [exact Lb0|]]]]].
    - split; [eapply wf_buffer_mono; eauto|]. split; [exact Ws1|].
      simpl. apply apart_sym. eapply located_apart; [apply Wb0|apply apart_sym, A0|exact Ls1].
    - simpl. destruct pp as [p|]; simpl; [apply Buffer_Reset_load|reflexivity].
    - eapply frame_weaken; [|exact F1]. intros a j [H|[H|H]]; unfold pool_region.
      + left. exact H.
      + destruct (located_region m m _ _ 0 a j (le_n _) Lb0 (or_intror H)) as [?|?]; auto.
      + destruct (located_region m m _ _ 0 a j (le_n _) Ls0 (or_intror H)) as [?|?]; auto.
    - simpl. eapply located_trans; [apply le_n|exact Ls0|exact Ls1]. }
  destruct (writing_Write _ _ _ _ _ ahb Hog Wg) as (b' & m2 & E2 & H2 & _).
  cbn [set_buf p_buf scratch] in *.
  exists (p1, b', None), m2. split.
  { unfold arrHeader. step E1. cbv iota. step E2. reflexivity. }
  split; [|split; [reflexivity|]].
  - simpl concat. rewrite app_nil_r, <- C. exact H2.
  - rewrite N1. apply get_scratch_nil.
Qed.

Lemma restore_spec m0 pp hd m st os e sn :
  looping m0 pp hd m st (os, e, sn) ->
  exists p' g, restore st m = Ok ((p', (g, e)), m) /\
    marshal_post m0 pp (hd ++ concat os) sn p' g m.
Proof.
  destruct st as [[p ogBuf] err]. intros (H & -> & Hsn).
  destruct (writing_done _ _ _ _ _ H) as (r & E & D).
  cbn [set_buf p_buf scratch] in *. rewrite Hsn in D.
  exists (set_buf p ogBuf), (of_oslice r). split; [|exact D].
  unfold restore. rewrite (bind_lift_Ok _ _ _ _ E). reflexivity.
Qed.

Lemma marshals_via_get (c : M Result) m pp out err sn :
  marshals c m (Some (get pp)) out err sn -> marshals c m pp out err sn.
Proof.
  destruct (get_located m pp) as [Lb Ls]. apply marshals_rebase; assumption.
Qed.

Lemma ret_marshals m pp (g : gobytes) err :
  wf_opool m pp -> is_nil g = true \/ (exists l, g = GLit l) ->
  marshals (ret (get pp, (g, err))) m pp (content m g) err (is_nil (of_oslice (oscratch pp))).
Proof.
  intros W Hg. exists (get pp), g, m. split; [reflexivity|].
  destruct (get_located m pp) as [Lb Ls].
  split; [apply get_wf, W|]. split; [destruct Hg as [H|[l ->]]; [destruct g; try discriminate|]; exact I|].
  split; [reflexivity|]. split; [apply frame_refl|]. split; [exact Lb|]. split; [exact Ls|].
  apply get_scratch_nil.
Qed.

Lemma bulk_marshals m pp (b : option bytes) :
  wf_opool m pp ->
  marshals (BulkString_MarshalRESP (Some (get pp)) (of_obytes b)) m pp (bulk_of b) None
    (is_nil (of_oslice (oscratch pp))).
Proof.
  intros W. apply marshals_via_get.
  destruct (BulkString_MarshalRESP_spec m (Some (get pp)) (of_obytes b)) as (p' & g & m' & E & P & _).
  - apply get_wf, W.
  - destruct b; exact I.
  - destruct b; exact I.
  - exists p', g, m'. split; [exact E|].
    cbn [oscratch] in P. rewrite get_scratch_nil in P. destruct b; exact P.
Qed.

Lemma scratch_marshals m pp (s : bytes) :
  wf_opool m pp ->
  simulates (sc <- append (scratch (get pp)) s ;; bulkStrFromScratch (set_scratch (get pp) sc))
    m pp (enc_scratch s (is_nil (of_oslice (oscratch pp)))).
Proof.
  intros W. pose proof (writing_get _ _ W) as H0.
  destruct (writing_append _ _ _ _ _ s H0) as (sc & m1 & E1 & H1 & _ & Wsc & Csc & Lsc & Nsc & _).
  rewrite (content_len0 m (scratch (get pp))) in Csc by apply get_scratch_len. simpl in Csc.
  destruct H1 as (W1 & _ & _ & F1 & Lb1 & Ls1).
  destruct (bulkStrFromScratch_spec m1 _ W1) as (p' & g & m' & E & P).
  cbn [set_scratch scratch p_buf] in *.
  unfold enc_scratch, simulates.
  exists p', g, m'. split; [step E1; exact E|].
  apply (marshal_post_rebase m pp m1 (Some (set_scratch (get pp) sc))); [exact F1|exact Lb1|exact Ls1|].
  assert (Hnil : is_nil (of_oslice sc) = is_nil (of_oslice (oscratch pp)) && is_empty s).
  { rewrite <- get_scratch_nil. destruct sc as [sc|].
    - simpl. destruct (scratch (get pp)) as [g0|]; simpl; [reflexivity|].
      destruct s; [|reflexivity]. exfalso.
      assert (Some sc = None) by (apply Nsc; auto). discriminate.
    - destruct Nsc as [Nsc _]. destruct (Nsc eq_refl) as [-> ->]. reflexivity. }
  rewrite <- Hnil.
  replace (if is_nil (of_oslice sc) then nilBulkString else bulk s)
    with (match sc with None => nilBulkString | Some s0 => bulk (load m1 s0) end); [exact P|].
  destruct sc as [sc|]; simpl; [|reflexivity]. simpl in Csc. now rewrite Csc.
Qed.

Lemma nil_container_marshals m pp :
  wf_opool m pp ->
  marshals (ogBuf <- Buffer_Write (p_buf (get pp)) (GLit nilArray) ;;
            restore (get pp, ogBuf, None)) m pp nilArray None
    (is_nil (of_oslice (oscratch pp))).
Proof.
  intros W. pose proof (writing_get _ _ W) as H0.
  destruct (writing_Write _ _ _ _ _ (GLit nilArray) H0 I) as (b1 & m1 & E1 & H1 & _).
  destruct (restore_spec m pp [] m1 (get pp, b1, None) [nilArray] None
              (is_nil (of_oslice (oscratch pp)))) as (p' & g & E & P).
  { split; [exact H1|split; [reflexivity|apply get_scratch_nil]]. }
  exists p', g, m1. split; [step E1; exact E|exact P].
Qed.

Lemma container_marshals m pp n (loop : locals -> M locals) (r : res progress) :
  wf_opool m pp ->
  (forall m1 st, looping m pp (line arrayPrefix (Z.of_nat n)) m1 st
                   ([], None, is_nil (of_oslice (oscratch pp))) ->
     match r with
     | Ok pr' => exists st' m', loop st m1 = Ok (st', m') /\
                                looping m pp (line arrayPrefix (Z.of_nat n)) m' st' pr'
     | Panic _ => exists s, loop st m1 = Panic s
     end) ->
  simulates (st <- arrHeader (get pp, p_buf (get pp), None) (Z.of_nat n) ;;
             st <- loop st ;; restore st) m pp (enc_array n r).
Proof.
  intros W Hloop.
  destruct (arrHeader_spec m pp (Z.of_nat n) W) as (st1 & m1 & E1 & H1).
  specialize (Hloop m1 st1 H1). destruct r as [[[os e] sn]|msg]; simpl.
  - destruct Hloop as (st2 & m2 & E2 & H2).
    destruct (restore_spec _ _ _ _ _ _ _ _ H2) as (p' & g & E3 & P).
    exists p', g, m2. split; [step E1; step E2; exact E3|exact P].
  - destruct Hloop as (s & E2). exists s. step E1. apply bind_Panic. exact E2.
Qed.

(** The marshaler agrees with the list model on every value. *)
Lemma Any_MarshalRESP_simulates : forall v, Any_simulates v.
Proof.
  apply value_induction.
  - intros v Hleaf m pp W.
    destruct v as [b|s|b|s|s| |i|msg|out err|out err|out err|q|q|[l|]|l|[l|]|ty];
      try contradiction; cbn [Any_MarshalRESP enc simulates].
    + now apply bulk_marshals.
    + now apply scratch_marshals.
    + apply (bulk_marshals m pp (Some (bools b))), W.
    + now apply scratch_marshals.
    + now apply scratch_marshals.
    + apply (bulk_marshals m pp None), W.
    + apply marshals_via_get. cbn [oscratch]. rewrite <- get_scratch_nil.
      apply Int_MarshalRESP_spec, get_wf, W.
    + apply marshals_via_get. rewrite <- get_scratch_nil.
      apply (Error_MarshalRESP_spec m (Some (get pp)) (Some msg)), get_wf, W.
    + replace (match out with Some l => l | None => [] end) with (content m (of_obytes out))
        by (destruct out; reflexivity).
      apply ret_marshals; [exact W|]. destruct out as [l|]; [right; exists l|left]; reflexivity.
    + destruct err as [e|]; [|now apply bulk_marshals].
      apply (ret_marshals m pp GNil (Some e) W). now left.
    + destruct err as [e|]; [|now apply bulk_marshals].
      apply (ret_marshals m pp GNil (Some e) W). now left.
    + apply marshals_via_get. rewrite <- get_scratch_nil.
      apply (ret_marshals m (Some (get pp)) GNil); [apply get_wf, W|now left].
    + apply (ret_marshals m pp GNil _ W). now left.
    + now apply nil_container_marshals.
    + exists "reflect: call of reflect.Value.IsNil on array Value". reflexivity.
    + now apply nil_container_marshals.
    + apply (ret_marshals m pp GNil _ W). now left.
  - intros l Hl m pp W. cbn [Any_MarshalRESP enc].
    apply container_marshals; [exact W|]. intros m1 st H.
    apply each_elem_simulates; assumption.
  - intros l Hl m pp W. cbn [Any_MarshalRESP enc].
    apply container_marshals; [exact W|]. intros m1 st H.
    apply each_entry_simulates; assumption.
Qed.

(** * Lemmas: reading from the pool *)

Lemma IndexByte_notin l c : ~ In c l -> IndexByte l c = (-1)%Z.
Proof.
  induction l as [|x l IH]; simpl; [reflexivity|]. intros N.
  destruct (Byte.eqb x c) eqn:E.
  - apply Byte.byte_dec_bl in E. exfalso. apply N. now left.
  - rewrite IH by (intros H; apply N; now right). reflexivity.
Qed.

Lemma IndexByte_app l c r : ~ In c l -> IndexByte (l ++ c :: r) c = Z.of_nat (length l).
Proof.
  induction l as [|x l IH]; simpl; intros N.
  - replace (Byte.eqb c c) with true; [reflexivity|]. symmetry. now apply Byte.byte_dec_lb.
  - destruct (Byte.eqb x c) eqn:E.
    + apply Byte.byte_dec_bl in E. exfalso. apply N. now left.
    + rewrite IH by (intros H; apply N; now right).
      destruct (Z.of_nat (length l) <? 0)%Z eqn:Z; [apply Z.ltb_lt in Z; lia|lia].
Qed.

Lemma IndexByte_nonneg_in l c : (0 <= IndexByte l c)%Z -> In c l.
Proof.
  intros H. destruct (in_dec Byte.byte_eq_dec c l) as [I|N]; [exact I|].
  rewrite IndexByte_notin in H by assumption. lia.
Qed.

Lemma reading_Next m p data n :
  reading m p data -> (0 <= n)%Z ->
  exists b' d, Buffer_Next (p_buf p) n = Ok (b', d) /\
    reading m (set_buf p b') (skipn (Z.to_nat n) data) /\
    wf_oslice m d /\ content m (of_oslice d) = firstn (Z.to_nat n) data /\
    buf b' = buf (p_buf p).
Proof.
  intros ((Wb & Ws & A) & L) Hn.
  destruct (Buffer_Next_spec m _ n Wb Hn) as (b' & d & E & Wb' & Wd & C & L' & Eb).
  exists b', d. split; [exact E|]. rewrite L in *.
  split; [|split; [exact Wd|split; [exact C|exact Eb]]].
  split; [|exact L']. split; [exact Wb'|]. split; [exact Ws|]. simpl. now rewrite Eb.
Qed.

Lemma bufferedPrefix_spec m p data prefix :
  reading m p data ->
  exists p', bufferedPrefix p prefix m =
      Ok ((p', if bytes_eqb (firstn (length prefix) data) prefix then None
               else Some (ErrPrefix prefix (firstn (length prefix) data))), m) /\
    reading m p' (skipn (length prefix) data) /\
    scratch p' = scratch p /\ buf (p_buf p') = buf (p_buf p).
Proof.
  intros R.
  destruct (reading_Next m p data (Z.of_nat (length prefix)) R (Nat2Z.is_nonneg _))
    as (b' & d & E & R' & Wd & C & Eb).
  rewrite Nat2Z.id in *.
  exists (set_buf p b'). split; [|split; [exact R'|split; [reflexivity|exact Eb]]].
  unfold bufferedPrefix. rewrite (bind_lift_Ok _ _ _ _ E). cbv iota.
  rewrite bind_read, C. reflexivity.
Qed.

Lemma readSlice_found m p data d l r :
  reading m p data -> data = l ++ d :: r -> ~ In d l ->
  exists p' s, readSlice p d m = Ok ((p', (s, None)), m) /\
    reading m p' r /\ wf_oslice m s /\ content m (of_oslice s) = l ++ [d] /\
    olen s = S (length l) /\
    scratch p' = scratch p /\ buf (p_buf p') = buf (p_buf p).
Proof.
  intros R -> N. pose proof R as ((Wb & Ws & A) & L).
  destruct (Buffer_Bytes_spec m _ Wb) as (whole & Ew & Ww & Cw & _).
  assert (Hn : (0 <= Z.of_nat (length l) + 1)%Z) by lia.
  destruct (reading_Next m p _ _ R Hn) as (b' & s & E & R' & Wd & C & Eb).
  replace (Z.to_nat (Z.of_nat (length l) + 1)) with (S (length l)) in * by lia.
  assert (Hf : firstn (S (length l)) (l ++ d :: r) = l ++ [d]).
  { change (d :: r) with ([d] ++ r). rewrite app_assoc.
    rewrite firstn_app. replace (S (length l) - length (l ++ [d])) with 0
      by (rewrite length_app; cbn [length]; lia).
    rewrite firstn_all2 by (rewrite length_app; cbn [length]; lia). simpl. apply app_nil_r. }
  assert (Hs : skipn (S (length l)) (l ++ d :: r) = r).
  { change (d :: r) with ([d] ++ r). rewrite app_assoc.
    rewrite skipn_app. replace (S (length l) - length (l ++ [d])) with 0
      by (rewrite length_app; cbn [length]; lia).
    rewrite skipn_all2 by (rewrite length_app; cbn [length]; lia). reflexivity. }
  rewrite Hf in C. rewrite Hs in R'.
  exists (set_buf p b'), s. split; [|split; [exact R'|split; [exact Wd|split; [exact C|split; [|split; [reflexivity|exact Eb]]]]]].
  - unfold readSlice. rewrite (bind_lift_Ok _ _ _ _ Ew), bind_read, Cw, L.
    rewrite IndexByte_app by assumption.
    destruct (Z.of_nat (length l) <? 0)%Z eqn:Z; [apply Z.ltb_lt in Z; lia|].
    rewrite (bind_lift_Ok _ _ _ _ E). reflexivity.
  - replace (olen s) with (glen (of_oslice s)) by (destruct s; reflexivity).
    rewrite <- (content_length m), C, length_app. cbn [length]. lia.
Qed.

Lemma readSlice_missing m p data d :
  reading m p data -> ~ In d data ->
  exists p' s, readSlice p d m = Ok ((p', (s, Some EOF)), m) /\
    reading m p' [] /\ content m (of_oslice s) = data /\
    scratch p' = scratch p /\ buf (p_buf p') = buf (p_buf p).
Proof.
  intros R N. pose proof R as ((Wb & Ws & A) & L).
  destruct (Buffer_Bytes_spec m _ Wb) as (whole & Ew & Ww & Cw & _).
  assert (Lw : olen whole = length data).
  { replace (olen whole) with (glen (of_oslice whole)) by (destruct whole; reflexivity).
    now rewrite <- (content_length m), Cw, L. }
  assert (Hn : (0 <= Z.of_nat (length data) + 1)%Z) by lia.
  destruct (reading_Next m p _ _ R Hn) as (b' & s & E & R' & Wd & C & Eb).
  rewrite firstn_all2 in C by lia. rewrite skipn_all2 in R' by lia.
  exists (set_buf p b'), s. split; [|split; [exact R'|split; [exact C|split; [reflexivity|exact Eb]]]].
  unfold readSlice. rewrite (bind_lift_Ok _ _ _ _ Ew), bind_read, Cw, L.
  rewrite IndexByte_notin by assumption. cbn [Z.ltb Z.compare]. rewrite Lw.
  rewrite (bind_lift_Ok _ _ _ _ E). reflexivity.
Qed.

Lemma content_sub_prefix m s k :
  k <= s_len s -> content m (GSl (sub s 0 k)) = firstn k (content m (GSl s)).
Proof.
  intros H. simpl. unfold load. rewrite firstn_loadn. simpl.
  rewrite Nat.add_0_r, Nat.sub_0_r, Nat.min_l by assumption. reflexivity.
Qed.

(** The line reader on what is buffered: a line [l] free of CR, the CR, one
    more byte whatever it is, and the rest. *)
Lemma bufferedBytesDelim_line m p l c r :
  reading m p (l ++ CR :: c :: r) -> ~ In CR l ->
  exists p' s, bufferedBytesDelim p m = Ok ((p', (Some s, None)), m) /\
    reading m p' r /\ wf_slice m s /\ load m s = l /\
    scratch p' = scratch p /\ buf (p_buf p') = buf (p_buf p).
Proof.
  intros R N.
  destruct (readSlice_found m p _ CR l (c :: r) R eq_refl N)
    as (p1 & s & E1 & R1 & Ws & Cs & Ls & Es1 & Eb1).
  destruct R1 as (W1 & L1).
  destruct (Buffer_ReadByte_some m _ c r (proj1 W1) L1) as (b2 & E2 & Wb2 & L2 & Eb2).
  destruct s as [s|]; [|discriminate]. simpl in Ls, Ws. destruct Ws as [Wa Wl].
  exists (set_buf p1 b2), (sub s 0 (length l)).
  split; [|split; [|split; [|split; [|split]]]].
  - unfold bufferedBytesDelim. step E1. cbv iota. step E2. cbv iota.
    cbn [olen]. rewrite Ls. cbn [Nat.eqb Nat.sub]. rewrite Nat.sub_0_r.
    rewrite (bind_lift_Ok _ _ _ (Some (sub s 0 (length l)))); [reflexivity|].
    apply slice_expr_Some; lia.
  - split; [|exact L2]. destruct W1 as (_ & Ws1 & A1).
    split; [exact Wb2|]. split; [exact Ws1|]. simpl. now rewrite Eb2.
  - split; simpl; lia.
  - change (load m (sub s 0 (length l))) with (content m (GSl (sub s 0 (length l)))).
    rewrite content_sub_prefix by lia.
    cbn [of_oslice] in Cs. rewrite Cs, firstn_app, Nat.sub_diag, firstn_all. simpl. apply app_nil_r.
  - exact Es1.
  - simpl. now rewrite Eb2.
Qed.

(** A CR with nothing after it: the line is returned together with io.EOF. *)
Lemma bufferedBytesDelim_cut m p l :
  reading m p (l ++ [CR]) -> ~ In CR l ->
  exists p' s, bufferedBytesDelim p m = Ok ((p', (s, Some EOF)), m) /\
    reading m p' [] /\ content m (of_oslice s) = l.
Proof.
  intros R N.
  destruct (readSlice_found m p _ CR l [] R eq_refl N)
    as (p1 & s & E1 & R1 & Ws & Cs & Ls & Es1 & Eb1).
  destruct R1 as (W1 & L1).
  pose proof (Buffer_ReadByte_empty m _ (proj1 W1) L1) as E2.
  destruct s as [s|]; [|discriminate]. simpl in Ls, Ws. destruct Ws as [Wa Wl].
  exists (set_buf p1 (Buffer_Reset (p_buf p1))), (Some (sub s 0 (length l))).
  split; [|split].
  - unfold bufferedBytesDelim. step E1. cbv iota. step E2. cbv iota.
    cbn [olen]. rewrite Ls. cbn [Nat.eqb Nat.sub]. rewrite Nat.sub_0_r.
    rewrite (bind_lift_Ok _ _ _ (Some (sub s 0 (length l)))); [reflexivity|].
    apply slice_expr_Some; lia.
  - split; [|apply Buffer_Reset_load]. destruct W1 as (Wb1 & Ws1 & A1).
    split; [apply Buffer_Reset_wf, Wb1|]. split; [exact Ws1|]. simpl.
    destruct (buf (p_buf p1)), (scratch p1); simpl in *; auto.
  - cbn [of_oslice]. rewrite content_sub_prefix by lia.
    cbn [of_oslice] in Cs. rewrite Cs, firstn_app, Nat.sub_diag, firstn_all. simpl. apply app_nil_r.
Qed.

(** No CR buffered: io.EOF, and everything buffered is consumed. *)
Lemma bufferedBytesDelim_missing m p data :
  reading m p data -> ~ In CR data ->
  exists p', bufferedBytesDelim p m = Ok ((p', (None, Some EOF)), m) /\ reading m p' [].
Proof.
  intros R N.
  destruct (readSlice_missing m p data CR R N) as (p1 & s & E1 & R1 & _).
  exists p1. split; [|exact R1]. unfold bufferedBytesDelim. step E1. reflexivity.
Qed.

Lemma bufferedIntDelim_line m p l c r :
  reading m p (l ++ CR :: c :: r) -> ~ In CR l ->
  exists p', bufferedIntDelim p m = Ok ((p', strconv.ParseInt l), m) /\
    reading m p' r /\
    scratch p' = scratch p /\ buf (p_buf p') = buf (p_buf p).
Proof.
  intros R N.
  destruct (bufferedBytesDelim_line m p l c r R N) as (p1 & s & E1 & R1 & Ws & Cs & Es & Eb).
  exists p1. split; [|split; [exact R1|split; assumption]].
  unfold bufferedIntDelim. step E1. cbv iota. rewrite bind_read. cbn [of_oslice content].
  rewrite Cs. reflexivity.
Qed.

(** * Lemmas: strconv *)

Lemma digit_byte_val d :
  (0 <= d <= 9)%Z -> byte_val (strconv.digit_byte d) = (48 + d)%Z.
Proof.
  intros H.
  assert (C : (d = 0 \/ d = 1 \/ d = 2 \/ d = 3 \/ d = 4 \/ d = 5 \/ d = 6 \/ d = 7 \/ d = 8 \/ d = 9)%Z) by lia.
  repeat (destruct C as [->|C]; [reflexivity|]). subst. reflexivity.
Qed.

Lemma digit_byte_is_digit d : (0 <= d <= 9)%Z -> strconv.is_digit (strconv.digit_byte d) = true.
Proof.
  intros H. unfold strconv.is_digit. rewrite digit_byte_val by assumption.
  apply andb_true_intro. split; apply Z.leb_le; lia.
Qed.

Lemma digit_byte_not_CR d : (0 <= d <= 9)%Z -> strconv.digit_byte d <> CR.
Proof.
  intros H E. pose proof (digit_byte_val d H) as V. rewrite E in V.
  change (byte_val CR) with 13%Z in V. lia.
Qed.

Lemma digit_byte_not_sign d c :
  (0 <= d <= 9)%Z -> (byte_val c < 48)%Z -> Byte.eqb (strconv.digit_byte d) c = false.
Proof.
  intros H Hc. destruct (Byte.eqb (strconv.digit_byte d) c) eqn:E; [|reflexivity].
  apply Byte.byte_dec_bl in E. pose proof (digit_byte_val d H) as V. rewrite E in V. lia.
Qed.

Lemma parseUint_loop_digit n d s :
  (0 <= d <= 9)%Z -> (0 <= n)%Z -> (n * 10 + d <= strconv.maxUint64)%Z ->
  strconv.parseUint_loop n (strconv.digit_byte d :: s) = strconv.parseUint_loop (n * 10 + d) s.
Proof.
  intros Hd Hn Hmax. cbn [strconv.parseUint_loop].
  rewrite digit_byte_is_digit, digit_byte_val by assumption.
  unfold strconv.maxUint64 in *.
  replace (48 + d - 48)%Z with d by lia.
  change (2 ^ 64 - 1)%Z with 18446744073709551615%Z in *.
  change (18446744073709551615 / 10 + 1)%Z with 1844674407370955162%Z.
  change (2 ^ 64)%Z with 18446744073709551616%Z.
  destruct (n >=? 1844674407370955162)%Z eqn:E1; [apply Z.geb_le in E1; lia|].
  rewrite Z.mod_small by lia.
  destruct (n * 10 + d <? n * 10)%Z eqn:E2; [apply Z.ltb_lt in E2; lia|].
  destruct (18446744073709551615 <? n * 10 + d)%Z eqn:E3; [apply Z.ltb_lt in E3; lia|].
  reflexivity.
Qed.

Lemma parseUint_formatBits fuel : forall u acc,
  (0 <= u < 10 ^ Z.of_nat fuel)%Z -> (u <= strconv.maxUint64)%Z ->
  strconv.parseUint_loop 0 (strconv.formatBits fuel u acc) = strconv.parseUint_loop u acc.
Proof.
  induction fuel as [|fuel IH]; intros u acc Hu Hmax.
  - simpl in Hu. assert (u = 0)%Z by lia. subst. reflexivity.
  - cbn [strconv.formatBits].
    assert (Hm : (0 <= u mod 10 <= 9)%Z) by (pose proof (Z.mod_pos_bound u 10); lia).
    assert (Hq : (u = 10 * (u / 10) + u mod 10)%Z) by (apply Z.div_mod; lia).
    destruct (u / 10 =? 0)%Z eqn:E.
    + apply Z.eqb_eq in E. rewrite parseUint_loop_digit; [|assumption|lia|lia].
      f_equal. lia.
    + apply Z.eqb_neq in E.
      assert (0 <= u / 10)%Z by (apply Z.div_pos; lia).
      rewrite IH.
      * rewrite parseUint_loop_digit; [|assumption|lia|lia]. f_equal. lia.
      * split; [assumption|]. apply Z.div_lt_upper_bound; [lia|].
        rewrite Nat2Z.inj_succ, Z.pow_succ_r in Hu by lia. lia.
      * lia.
Qed.

Lemma formatBits_head fuel : forall u acc,
  (0 <= u)%Z ->
  exists d rest, (0 <= d <= 9)%Z /\
    strconv.formatBits (S fuel) u acc = strconv.digit_byte d :: rest.
Proof.
  induction fuel as [|fuel IH]; intros u acc Hu; cbn [strconv.formatBits].
  - assert (Hm : (0 <= u mod 10 <= 9)%Z) by (pose proof (Z.mod_pos_bound u 10); lia).
    destruct (u / 10 =? 0)%Z; eauto.
  - assert (Hm : (0 <= u mod 10 <= 9)%Z) by (pose proof (Z.mod_pos_bound u 10); lia).
    destruct (u / 10 =? 0)%Z eqn:E; [eauto|].
    apply (IH (u / 10)%Z). apply Z.div_pos; lia.
Qed.

Lemma formatBits_no_CR fuel : forall u acc,
  (0 <= u)%Z -> ~ In CR acc -> ~ In CR (strconv.formatBits fuel u acc).
Proof.
  induction fuel as [|fuel IH]; intros u acc Hu Hacc; cbn [strconv.formatBits]; [exact Hacc|].
  assert (Hm : (0 <= u mod 10 <= 9)%Z) by (pose proof (Z.mod_pos_bound u 10); lia).
  assert (Hacc' : ~ In CR (strconv.digit_byte (u mod 10) :: acc)).
  { intros [H|H]; [now apply (digit_byte_not_CR _ Hm)|contradiction]. }
  destruct (u / 10 =? 0)%Z; [exact Hacc'|].
  apply IH; [apply Z.div_pos; lia|exact Hacc'].
Qed.

Lemma FormatInt_no_CR i : ~ In CR (strconv.FormatInt i).
Proof.
  unfold strconv.FormatInt. destruct (i <? 0)%Z.
  - intros [H|H]; [discriminate|]. revert H. apply formatBits_no_CR; [|intros []].
    apply Z.mod_pos_bound. lia.
  - apply formatBits_no_CR; [|intros []]. apply Z.mod_pos_bound. lia.
Qed.

(** Parsing what was formatted gives the integer back, for every int64. *)
Lemma ParseInt_FormatInt i :
  (- 2 ^ 63 <= i < 2 ^ 63)%Z -> strconv.ParseInt (strconv.FormatInt i) = (i, None).
Proof.
  intros Hi. unfold strconv.FormatInt.
  change (2 ^ 63)%Z with 9223372036854775808%Z in *.
  change (2 ^ 64)%Z with 18446744073709551616%Z.
  assert (P20 : (10 ^ Z.of_nat 20 = 100000000000000000000)%Z) by reflexivity.
  destruct (i <? 0)%Z eqn:Neg.
  - apply Z.ltb_lt in Neg. rewrite Z.mod_small by lia.
    unfold strconv.ParseInt. cbn [Byte.eqb].
    change (Byte.eqb "-" "+") with false. change (Byte.eqb "-" "-") with true. cbv iota.
    destruct (formatBits_head 19 (- i) [] ltac:(lia)) as (d & rest & Hd & E).
    unfold strconv.ParseUint. rewrite E. cbv iota. rewrite <- E.
    rewrite parseUint_formatBits by (unfold strconv.maxUint64; rewrite ?P20; lia).
    cbn [strconv.parseUint_loop negb andb].
    change (2 ^ 63)%Z with 9223372036854775808%Z.
    destruct (- i >? 9223372036854775808)%Z eqn:C; [apply Z.gtb_lt in C; lia|].
    f_equal. lia.
  - apply Z.ltb_ge in Neg. rewrite Z.mod_small by lia.
    destruct (formatBits_head 19 i [] Neg) as (d & rest & Hd & E).
    unfold strconv.ParseInt. rewrite E.
    rewrite !digit_byte_not_sign by (assumption || (vm_compute; reflexivity)).
    unfold strconv.ParseUint. cbv iota. rewrite <- E.
    rewrite parseUint_formatBits by (unfold strconv.maxUint64; rewrite ?P20; lia).
    cbn [strconv.parseUint_loop negb andb].
    change (2 ^ 63)%Z with 9223372036854775808%Z.
    destruct (i >=? 9223372036854775808)%Z eqn:C; [apply Z.geb_le in C; lia|].
    reflexivity.
Qed.

(** * Lemmas: the decoders *)

Lemma firstn_prefix {A} (a b : list A) : firstn (length a) (a ++ b) = a.
Proof. rewrite firstn_app, Nat.sub_diag, firstn_all. simpl. apply app_nil_r. Qed.

Lemma skipn_prefix {A} (a b : list A) : skipn (length a) (a ++ b) = b.
Proof. rewrite skipn_app, Nat.sub_diag, skipn_all. reflexivity. Qed.

Lemma bufload_length m b : wf_buffer m b -> length (bufload m b) = Buffer_Len b.
Proof.
  intros _. unfold bufload, Buffer_Len. destruct (buf b); [apply loadn_length|reflexivity].
Qed.

Lemma decode_start m pp bb :
  wf_opool m pp -> wf_gobytes m bb ->
  exists b1 m1, Buffer_Write (p_buf (get pp)) bb m = Ok (b1, m1) /\
    reading m1 (set_buf (get pp) b1) (content m bb) /\
    frame (pool_region m pp) m m1 /\
    scratch (set_buf (get pp) b1) = scratch (get pp).
Proof.
  intros W Wb. pose proof (writing_get _ _ W) as H0.
  destruct (writing_Write _ _ _ _ _ bb H0 Wb) as (b1 & m1 & E1 & (W1 & _ & L1 & F1 & _) & _).
  exists b1, m1. split; [exact E1|]. split; [split; [exact W1|exact L1]|]. split; [exact F1|reflexivity].
Qed.

Lemma decode_frame_mismatch {A} m pp bb prefix (old : A) k :
  wf_opool m pp -> wf_gobytes m bb ->
  firstn (length prefix) (content m bb) <> prefix ->
  exists p' m',
    decode_frame pp bb prefix old k m =
      Ok ((p', (old, Some (ErrPrefix prefix (firstn (length prefix) (content m bb))))), m') /\
    reading m' p' (skipn (length prefix) (content m bb)).
Proof.
  intros W Wb N.
  destruct (decode_start m pp bb W Wb) as (b1 & m1 & E1 & R1 & _).
  destruct (bufferedPrefix_spec m1 _ _ prefix R1) as (p2 & E2 & R2 & _).
  rewrite bytes_eqb_neq in E2 by assumption.
  exists p2, m1. split; [|exact R2].
  unfold decode_frame. cbv zeta. step E1. step E2. reflexivity.
Qed.

Lemma decode_frame_match {A} m pp bb prefix (old : A) k rest :
  wf_opool m pp -> wf_gobytes m bb ->
  content m bb = prefix ++ rest ->
  exists p1 m1,
    decode_frame pp bb prefix old k m = k p1 m1 /\
    reading m1 p1 rest /\ frame (pool_region m pp) m m1.
Proof.
  intros W Wb C.
  destruct (decode_start m pp bb W Wb) as (b1 & m1 & E1 & R1 & F1 & _).
  destruct (bufferedPrefix_spec m1 _ _ prefix R1) as (p2 & E2 & R2 & _).
  rewrite C, firstn_prefix, skipn_prefix, bytes_eqb_refl in *.
  exists p2, m1. split; [|split; [exact R2|exact F1]].
  unfold decode_frame. cbv zeta. step E1. step E2. reflexivity.
Qed.

Lemma SimpleString_UnmarshalRESP_frame pp S b :
  SimpleString_UnmarshalRESP pp S b =
  decode_frame pp b simpleStrPrefix S
    (fun p => '(p, (b, err)) <- bufferedBytesDelim p ;; ret (p, (of_oslice b, err))).
Proof. reflexivity. Qed.

Lemma Error_UnmarshalRESP_frame pp E b :
  Error_UnmarshalRESP pp E b =
  decode_frame pp b errPrefix E
    (fun p => '(p, (b, err)) <- bufferedBytesDelim p ;;
              msg <- read (of_oslice b) ;; ret (p, (Some msg, err))).
Proof. reflexivity. Qed.

Lemma Int_UnmarshalRESP_frame pp I b :
  Int_UnmarshalRESP pp I b =
  decode_frame pp b intPrefix I
    (fun p => '(p, (n, err)) <- bufferedIntDelim p ;; ret (p, (n, err))).
Proof. reflexivity. Qed.

Lemma ArrayHeader_UnmarshalRESP_frame pp N b :
  ArrayHeader_UnmarshalRESP pp N b =
  decode_frame pp b arrayPrefix N
    (fun p => '(p, (n, err)) <- bufferedIntDelim p ;; ret (p, (n, err))).
Proof. reflexivity. Qed.

Lemma BulkString_UnmarshalRESP_frame pp B bb :
  BulkString_UnmarshalRESP pp B bb = decode_frame pp bb bulkStrPrefix B (BulkString_payload B).
Proof. reflexivity. Qed.

Lemma gappend_spec m g data :
  wf_gobytes m g ->
  exists g' m', gappend g data m = Ok (g', m') /\
    wf_gobytes m' g' /\
    glen g' = glen g + length data /\
    content m' g' = content m g ++ data /\
    frame (fun a j => fresh m a j \/
                      match g with GSl s => from (Some s) (s_len s) a j | _ => False end) m m' /\
    (is_nil g = false -> is_nil g' = false).
Proof.
  intros W. destruct g as [|l|s]; unfold gappend.
  - destruct (append_spec m None data I) as (s' & m' & E & Ws & C & F & _ & Len & Nil).
    exists (of_oslice s'), m'. split; [step E; reflexivity|].
    split; [destruct s'; exact Ws|]. split; [destruct s'; exact Len|]. split; [exact C|].
    split; [|discriminate]. eapply frame_weaken; [|exact F]. intros a j [H|H]; [now left|contradiction].
  - destruct data as [|c data'] eqn:Ed.
    + exists (GLit l), m. split; [reflexivity|]. simpl. rewrite app_nil_r.
      split; [exact I|]. split; [lia|]. split; [reflexivity|]. split; [apply frame_refl|reflexivity].
    + rewrite <- Ed. pose proof (growcap_ge (length l) (length l + length data)) as Hg.
      do 2 eexists. split; [reflexivity|].
      split; [split; simpl; lia|]. split; [reflexivity|]. split.
      { simpl. unfold load. simpl. apply loadn_store_eq. now rewrite length_app. }
      split; [|reflexivity].
      eapply frame_trans; [apply frame_allocate|apply frame_store]; intros; left; unfold fresh; simpl; lia.
  - destruct (append_spec m (Some s) data W) as (s' & m' & E & Ws & C & F & _ & Len & Nil).
    exists (of_oslice s'), m'. split; [step E; reflexivity|].
    split; [destruct s'; exact Ws|]. split; [destruct s'; exact Len|]. split; [exact C|].
    split; [exact F|]. intros _. destruct s' as [s'|]; [reflexivity|].
    destruct Nil as [Nil _]. destruct (Nil eq_refl). discriminate.
Qed.

Lemma reading_frame (A : region) m m' p data :
  reading m p data -> frame A m m' ->
  (forall s j, buf (p_buf p) = Some s -> ~ A (s_arr s) j) ->
  reading m' p data.
Proof.
  intros ((Wb & Ws & Ap) & L) F H. pose proof F as [N _].
  split; [split; [eapply wf_buffer_mono; eauto|split; [eapply wf_oslice_mono; eauto|exact Ap]]|].
  rewrite <- L. eapply bufload_frame; [exact F|]. intros s j Es _. now apply H.
Qed.

Lemma reading_fresh m m' p data :
  reading m p data -> frame (fresh m) m m' -> reading m' p data.
Proof.
  intros R F. eapply reading_frame; [exact R|exact F|].
  intros s j Es H. destruct R as (((Wb & _) & _) & _). rewrite Es in Wb. destruct Wb.
  unfold fresh in H. lia.
Qed.

(** A declared length of -1: the nil bulk string, and nothing more is read. *)
Lemma BulkString_payload_nil m p B l c rest :
  reading m p (l ++ CR :: c :: rest) -> ~ In CR l ->
  strconv.ParseInt l = ((-1)%Z, None) ->
  exists p', BulkString_payload B p m = Ok ((p', (GNil, None)), m) /\ reading m p' rest.
Proof.
  intros R N P.
  destruct (bufferedIntDelim_line m p l c rest R N) as (p1 & E1 & R1 & _).
  exists p1. split; [|exact R1]. unfold BulkString_payload. step E1. rewrite P. reflexivity.
Qed.

(** A declared length [n >= 0]: up to [n] bytes are appended to what [B]
    holds, and a length other than [n] is an error. *)
Lemma BulkString_payload_append m p B l c rest n :
  reading m p (l ++ CR :: c :: rest) -> ~ In CR l ->
  strconv.ParseInt l = (n, None) -> (0 <= n)%Z -> wf_gobytes m B ->
  exists B1 m1 p1 B2 m2,
    (* the destination, allocated when it was nil *)
    wf_gobytes m1 B1 /\ glen B1 = glen B /\ frame (fresh m) m m1 /\
    (is_nil B = true -> exists s, B1 = GSl s /\ s_arr s = next m /\ s_len s = 0) /\
    (is_nil B = false -> B1 = B /\ m1 = m) /\
    (* the payload appended *)
    reading m1 p1 (skipn (Z.to_nat n) rest) /\ buf (p_buf p1) = buf (p_buf p) /\
    gappend B1 (firstn (Z.to_nat n) rest) m1 = Ok (B2, m2) /\
    BulkString_payload B p m =
      (if negb (Z.of_nat (glen B2) =? n)%Z
       then ret (p1, (B2, Some (ErrBulkLen n (Z.of_nat (glen B2)))))
       else
         '(b', d) <- lift (Buffer_Next (p_buf p1) 2) ;;
         let p := set_buf p1 b' in
         data <- read (of_oslice d) ;;
         if bytes_eqb data delim then ret (p, (B2, None))
         else ret (p, (B2, Some (ErrBulkDelim delim data)))) m2.
Proof.
  intros R N P Hn WB.
  destruct (bufferedIntDelim_line m p l c rest R N) as (p1 & E1 & R1 & _ & Eb1).
  assert (Hm1 : (n =? -1)%Z = false) by (apply Z.eqb_neq; lia).
  assert (Hneg : (n <? 0)%Z = false) by (apply Z.ltb_ge; lia).
  set (B1 := if is_nil B then GSl (mkSlice (next m) 0 0 (Z.to_nat n)) else B).
  set (m1 := if is_nil B then allocate m else m).
  assert (F1 : frame (fresh m) m m1).
  { subst m1. destruct (is_nil B); [|apply frame_refl]. apply frame_allocate. intros j. apply le_n. }
  assert (W1 : wf_gobytes m1 B1).
  { subst B1 m1. destruct (is_nil B); [split; simpl; lia|exact WB]. }
  pose proof (reading_fresh _ _ _ _ R1 F1) as R1'.
  destruct (reading_Next m1 p1 rest n R1' Hn) as (b2 & d & E2 & R2 & Wd & Cd & Eb2).
  destruct (gappend_spec m1 B1 (firstn (Z.to_nat n) rest) W1) as (B2 & m2 & E3 & _).
  exists B1, m1, (set_buf p1 b2), B2, m2.
  split; [exact W1|]. split; [subst B1; destruct B; reflexivity|]. split; [exact F1|].
  split; [intros HB; subst B1; rewrite HB; eauto|].
  split; [intros HB; subst B1 m1; rewrite HB; auto|].
  split; [exact R2|]. split; [simpl; now rewrite Eb2|]. split; [exact E3|].
  unfold BulkString_payload. step E1. rewrite P. cbv iota zeta. rewrite Hm1.
  assert (EB : (if is_nil B
                then if (n <? 0)%Z then panic "makeslice: cap out of range"
                     else s <- make 0 (Z.to_nat n) ;; ret (GSl s)
                else ret B) m = Ok (B1, m1)).
  { subst B1 m1. rewrite Hneg. destruct (is_nil B); reflexivity. }
  step EB. rewrite (bind_lift_Ok _ _ _ _ E2). cbv iota zeta.
  rewrite bind_read, Cd. step E3. reflexivity.
Qed.

(** The payload read into a nil destination: a fresh slice takes up to [n]
    bytes; fewer than [n] is a length error, and so is anything but the
    terminator after them. *)
Lemma BulkString_payload_fresh m p l c rest n :
  reading m p (l ++ CR :: c :: rest) -> ~ In CR l ->
  strconv.ParseInt l = (n, None) -> (0 <= n)%Z ->
  exists p' B' m',
    BulkString_payload GNil p m =
      Ok ((p', (B',
            if length rest <? Z.to_nat n
            then Some (ErrBulkLen n (Z.of_nat (length rest)))
            else if bytes_eqb (firstn 2 (skipn (Z.to_nat n) rest)) delim then None
                 else Some (ErrBulkDelim delim (firstn 2 (skipn (Z.to_nat n) rest))))), m') /\
    is_nil B' = false /\ content m' B' = firstn (Z.to_nat n) rest /\
    reading m' p' (if length rest <? Z.to_nat n then []
                   else skipn 2 (skipn (Z.to_nat n) rest)) /\
    frame (fresh m) m m'.
Proof.
  intros R N P Hn.
  destruct (BulkString_payload_append m p GNil l c rest n R N P Hn I)
    as (B1 & m1 & p1 & B2 & m2 & W1 & L1 & F1 & Hnil & _ & R1 & Eb & E2 & E).
  destruct (Hnil eq_refl) as (s & -> & Hs & Hl). clear Hnil.
  destruct (gappend_spec m1 (GSl s) (firstn (Z.to_nat n) rest) W1)
    as (B2' & m2' & E2' & W2 & L2 & C2 & F2 & N2).
  rewrite E2 in E2'. injection E2' as <- <-.
  pose proof F1 as [N01 _]. pose proof F2 as [N12 _].
  assert (F2' : frame (fresh m) m1 m2).
  { eapply frame_weaken; [|exact F2]. intros a j [H|H]; unfold fresh in *; [lia|].
    simpl in H. lia. }
  assert (R2 : reading m2 p1 (skipn (Z.to_nat n) rest)).
  { eapply reading_frame; [exact R1|exact F2'|].
    intros s0 j Es H. destruct R as (((Wb & _) & _) & _).
    rewrite Eb in Es. rewrite Es in Wb. destruct Wb. unfold fresh in H. lia. }
  assert (Lf : length (firstn (Z.to_nat n) rest) = Nat.min (Z.to_nat n) (length rest))
    by apply length_firstn.
  simpl content in C2. unfold load in C2. rewrite Hl in C2. simpl in C2.
  simpl glen in L2. rewrite Hl, Lf in L2. simpl in L2.
  rewrite E. clear E.
  destruct (length rest <? Z.to_nat n) eqn:Short.
  - apply Nat.ltb_lt in Short.
    assert (Hne : (Z.of_nat (glen B2) =? n)%Z = false) by (apply Z.eqb_neq; lia).
    rewrite Hne. cbn [negb].
    exists p1, B2, m2. split; [|split; [|split; [|split]]].
    + unfold ret. repeat f_equal. lia.
    + now apply N2.
    + exact C2.
    + rewrite skipn_all2 in R2 by lia. exact R2.
    + eapply frame_trans; eauto.
  - apply Nat.ltb_ge in Short.
    assert (Heq : (Z.of_nat (glen B2) =? n)%Z = true) by (apply Z.eqb_eq; lia).
    rewrite Heq. cbn [negb].
    destruct (reading_Next m2 p1 _ 2 R2 ltac:(lia)) as (b3 & d & E3 & R3 & Wd & Cd & _).
    change (Z.to_nat 2) with 2 in *.
    exists (set_buf p1 b3), B2, m2. split; [|split; [|split; [|split]]].
    + rewrite (bind_lift_Ok _ _ _ _ E3). cbv iota zeta. rewrite bind_read, Cd.
      destruct (bytes_eqb _ delim); reflexivity.
    + now apply N2.
    + exact C2.
    + exact R3.
    + eapply frame_trans; eauto.
Qed.

(* ================================================================== *)
(** * The claims *)

(** ** Round trips *)

Lemma SimpleString_roundtrip m pp S :
  wf_opool m pp -> ~ In CR S ->
  exists p1 g m1,
    SimpleString_MarshalRESP pp (GLit S) m = Ok ((p1, (g, None)), m1) /\
    forall pp2, wf_opool m1 pp2 ->
      exists p2 S' m2,
        SimpleString_UnmarshalRESP pp2 GNil g m1 = Ok ((p2, (S', None)), m2) /\
        is_nil S' = false /\ content m2 S' = S.
Proof.
  intros W N.
  destruct (SimpleString_MarshalRESP_spec m pp (GLit S) W I I) as (p1 & g & m1 & E & P).
  destruct P as (_ & Wg & Cg & _).
  exists p1, g, m1. split; [exact E|]. intros pp2 W2.
  rewrite SimpleString_UnmarshalRESP_frame.
  destruct (decode_frame_match m1 pp2 g simpleStrPrefix GNil
              (fun p => '(p, (b, err)) <- bufferedBytesDelim p ;; ret (p, (of_oslice b, err)))
              (S ++ CR :: LF :: []) W2 Wg Cg) as (p2 & m2 & Ek & R & _).
  destruct (bufferedBytesDelim_line m2 p2 S LF [] R N) as (p3 & s & E3 & _ & _ & Cs & _).
  exists p3, (GSl s), m2. split; [|split; [reflexivity|exact Cs]].
  rewrite Ek. step E3. reflexivity.
Qed.

Lemma Error_roundtrip m pp msg :
  wf_opool m pp -> ~ In CR msg ->
  exists p1 g m1,
    Error_MarshalRESP pp (Some msg) m = Ok ((p1, (g, None)), m1) /\
    forall pp2, wf_opool m1 pp2 ->
      exists p2 m2,
        Error_UnmarshalRESP pp2 None g m1 = Ok ((p2, (Some msg, None)), m2).
Proof.
  intros W N.
  destruct (Error_MarshalRESP_spec m pp (Some msg) W) as (p1 & g & m1 & E & P).
  destruct P as (_ & Wg & Cg & _).
  exists p1, g, m1. split; [exact E|]. intros pp2 W2.
  rewrite Error_UnmarshalRESP_frame.
  destruct (decode_frame_match m1 pp2 g errPrefix None
              (fun p => '(p, (b, err)) <- bufferedBytesDelim p ;;
                        msg <- read (of_oslice b) ;; ret (p, (Some msg, err)))
              (msg ++ CR :: LF :: []) W2 Wg Cg) as (p2 & m2 & Ek & R & _).
  destruct (bufferedBytesDelim_line m2 p2 msg LF [] R N) as (p3 & s & E3 & _ & _ & Cs & _).
  exists p3, m2. rewrite Ek. step E3. cbv iota. rewrite bind_read. cbn [of_oslice content].
  rewrite Cs. reflexivity.
Qed.

Lemma line_roundtrip m1 pp2 g prefix (old : Z) i :
  wf_opool m1 pp2 -> wf_gobytes m1 g -> content m1 g = line prefix i ->
  (- 2 ^ 63 <= i < 2 ^ 63)%Z ->
  exists p2 m2,
    decode_frame pp2 g prefix old
      (fun p => '(p, (n, err)) <- bufferedIntDelim p ;; ret (p, (n, err))) m1
    = Ok ((p2, (i, None)), m2).
Proof.
  intros W2 Wg Cg Hi.
  destruct (decode_frame_match m1 pp2 g prefix old
              (fun p => '(p, (n, err)) <- bufferedIntDelim p ;; ret (p, (n, err)))
              (strconv.FormatInt i ++ CR :: LF :: []) W2 Wg Cg) as (p2 & m2 & Ek & R & _).
  destruct (bufferedIntDelim_line m2 p2 _ LF [] R (FormatInt_no_CR i)) as (p3 & E3 & _).
  rewrite ParseInt_FormatInt in E3 by assumption.
  exists p3, m2. rewrite Ek. step E3. reflexivity.
Qed.

Lemma Int_roundtrip m pp i :
  wf_opool m pp -> (- 2 ^ 63 <= i < 2 ^ 63)%Z ->
  exists p1 g m1,
    Int_MarshalRESP pp i m = Ok ((p1, (g, None)), m1) /\
    forall pp2 old, wf_opool m1 pp2 ->
      exists p2 m2, Int_UnmarshalRESP pp2 old g m1 = Ok ((p2, (i, None)), m2).
Proof.
  intros W Hi.
  destruct (Int_MarshalRESP_spec m pp i W) as (p1 & g & m1 & E & P).
  destruct P as (_ & Wg & Cg & _).
  exists p1, g, m1. split; [exact E|]. intros pp2 old W2.
  rewrite Int_UnmarshalRESP_frame. now apply line_roundtrip.
Qed.

Lemma ArrayHeader_roundtrip m pp n :
  wf_opool m pp -> (- 2 ^ 63 <= n < 2 ^ 63)%Z ->
  exists p1 g m1,
    ArrayHeader_MarshalRESP pp n m = Ok ((p1, (g, None)), m1) /\
    forall pp2 old, wf_opool m1 pp2 ->
      exists p2 m2, ArrayHeader_UnmarshalRESP pp2 old g m1 = Ok ((p2, (n, None)), m2).
Proof.
  intros W Hi.
  destruct (ArrayHeader_MarshalRESP_spec m pp n W) as (p1 & g & m1 & E & P).
  destruct P as (_ & Wg & Cg & _).
  exists p1, g, m1. split; [exact E|]. intros pp2 old W2.
  rewrite ArrayHeader_UnmarshalRESP_frame. now apply line_roundtrip.
Qed.

Lemma BulkString_roundtrip m pp (B : option bytes) :
  wf_opool m pp -> (Z.of_nat (length (text_of B)) < 2 ^ 63)%Z ->
  exists p1 g m1,
    BulkString_MarshalRESP pp (of_obytes B) m = Ok ((p1, (g, None)), m1) /\
    forall pp2, wf_opool m1 pp2 ->
      exists p2 B' m2,
        BulkString_UnmarshalRESP pp2 GNil g m1 = Ok ((p2, (B', None)), m2) /\
        is_nil B' = is_nil (of_obytes B) /\ content m2 B' = text_of B.
Proof.
  intros W Hlen.
  destruct (BulkString_MarshalRESP_spec m pp (of_obytes B) W) as (p1 & g & m1 & E & P & _);
    [destruct B; exact I|destruct B; exact I|].
  destruct P as (_ & Wg & Cg & _).
  exists p1, g, m1. split; [exact E|]. intros pp2 W2.
  rewrite BulkString_UnmarshalRESP_frame.
  destruct B as [l|]; cbn [of_obytes is_nil content text_of] in *.
  - destruct (decode_frame_match m1 pp2 g bulkStrPrefix GNil (BulkString_payload GNil)
                (strconv.FormatInt (Z.of_nat (length l)) ++ CR :: LF :: (l ++ delim)) W2 Wg)
      as (p2 & m2 & Ek & R & _).
    { rewrite Cg. unfold bulk, line, delim. rewrite <- !app_assoc. reflexivity. }
    destruct (BulkString_payload_fresh m2 p2 _ LF (l ++ delim) (Z.of_nat (length l)) R
                (FormatInt_no_CR _)) as (p3 & B' & m3 & E3 & N3 & C3 & _).
    { apply ParseInt_FormatInt. lia. }
    { lia. }
    rewrite Nat2Z.id in *.
    assert (Hlt : (length (l ++ delim) <? length l) = false)
      by (apply Nat.ltb_ge; rewrite length_app; lia).
    rewrite Hlt, skipn_prefix in E3. rewrite firstn_prefix in C3.
    exists p3, B', m3. split; [|split; [exact N3|exact C3]].
    rewrite Ek. exact E3.
  - destruct (decode_frame_match m1 pp2 g bulkStrPrefix GNil (BulkString_payload GNil)
                (bs "-1" ++ CR :: LF :: []) W2 Wg Cg) as (p2 & m2 & Ek & R & _).
    destruct (BulkString_payload_nil m2 p2 GNil (bs "-1") LF [] R) as (p3 & E3 & _).
    { intros [H|[H|[]]]; discriminate. }
    { reflexivity. }
    exists p3, GNil, m2. split; [|split; reflexivity].
    rewrite Ek. exact E3.
Qed.

(** C1. Round trip, for every kind of the wire grammar: what a codec
    marshals, the same codec unmarshals into a zero value to the value it
    started from.  This holds for every simple string and error text free of
    CR (the empty one included), every int64 (zero and the negative ones
    included), every bulk string (nil, empty, with CR LF inside) and every
    array header (-1 included), with any well-formed pools on either side. *)
Theorem roundtrip_every_kind m pp :
  wf_opool m pp ->
  (forall S, ~ In CR S ->
     exists p1 g m1,
       SimpleString_MarshalRESP pp (GLit S) m = Ok ((p1, (g, None)), m1) /\
       forall pp2, wf_opool m1 pp2 ->
         exists p2 S' m2,
           SimpleString_UnmarshalRESP pp2 GNil g m1 = Ok ((p2, (S', None)), m2) /\
           is_nil S' = false /\ content m2 S' = S) /\
  (forall msg, ~ In CR msg ->
     exists p1 g m1,
       Error_MarshalRESP pp (Some msg) m = Ok ((p1, (g, None)), m1) /\
       forall pp2, wf_opool m1 pp2 ->
         exists p2 m2,
           Error_UnmarshalRESP pp2 None g m1 = Ok ((p2, (Some msg, None)), m2)) /\
  (forall i, (- 2 ^ 63 <= i < 2 ^ 63)%Z ->
     exists p1 g m1,
       Int_MarshalRESP pp i m = Ok ((p1, (g, None)), m1) /\
       forall pp2 old, wf_opool m1 pp2 ->
         exists p2 m2, Int_UnmarshalRESP pp2 old g m1 = Ok ((p2, (i, None)), m2)) /\
  (forall B : option bytes, (Z.of_nat (length (text_of B)) < 2 ^ 63)%Z ->
     exists p1 g m1,
       BulkString_MarshalRESP pp (of_obytes B) m = Ok ((p1, (g, None)), m1) /\
       forall pp2, wf_opool m1 pp2 ->
         exists p2 B' m2,
           BulkString_UnmarshalRESP pp2 GNil g m1 = Ok ((p2, (B', None)), m2) /\
           is_nil B' = is_nil (of_obytes B) /\ content m2 B' = text_of B) /\
  (forall n, (- 2 ^ 63 <= n < 2 ^ 63)%Z ->
     exists p1 g m1,
       ArrayHeader_MarshalRESP pp n m = Ok ((p1, (g, None)), m1) /\
       forall pp2 old, wf_opool m1 pp2 ->
         exists p2 m2, ArrayHeader_UnmarshalRESP pp2 old g m1 = Ok ((p2, (n, None)), m2)).
Proof.
  intros W. repeat split; intros.
  - now apply SimpleString_roundtrip.
  - now apply Error_roundtrip.
  - now apply Int_roundtrip.
  - now apply BulkString_roundtrip.
  - now apply ArrayHeader_roundtrip.
Qed.

(** ** Nil and empty bulk strings *)

(** C2. A nil [B] marshals to the constant [$-1\r\n], returned as it is: the
    pool and the store are left as they were.  An empty non-nil [B] marshals
    to [$0\r\n\r\n], and the two differ.  Unmarshaling a declared length of
    -1 makes the destination nil whatever it held, and reads nothing after
    the length line: what follows it in the input is still unread. *)
Theorem BulkString_nil_and_empty m pp :
  wf_opool m pp ->
  BulkString_MarshalRESP pp GNil m = Ok ((untouched pp, (GLit (bs "$-1" ++ [CR; LF]), None)), m) /\
  (exists p1 g m1,
     BulkString_MarshalRESP pp (GLit []) m = Ok ((p1, (g, None)), m1) /\
     content m1 g = bs "$0" ++ [CR; LF] ++ [CR; LF]) /\
  bs "$-1" ++ [CR; LF] <> bs "$0" ++ [CR; LF] ++ [CR; LF] /\
  (forall B bb rest,
     wf_gobytes m bb -> content m bb = bs "$-1" ++ [CR; LF] ++ rest ->
     exists p' m',
       BulkString_UnmarshalRESP pp B bb m = Ok ((p', (GNil, None)), m') /\
       bufload m' (p_buf p') = rest).
Proof.
  intros W. split; [reflexivity|]. split; [|split; [discriminate|]].
  - destruct (BulkString_MarshalRESP_spec m pp (GLit []) W I I) as (p1 & g & m1 & E & P & _).
    destruct P as (_ & _ & Cg & _). exists p1, g, m1. split; [exact E|exact Cg].
  - intros B bb rest Wb Cb. rewrite BulkString_UnmarshalRESP_frame.
    destruct (decode_frame_match m pp bb bulkStrPrefix B (BulkString_payload B)
                (bs "-1" ++ CR :: LF :: rest) W Wb Cb) as (p2 & m2 & Ek & R & _).
    destruct (BulkString_payload_nil m2 p2 B (bs "-1") LF rest R) as (p3 & E3 & R3).
    { intros [H|[H|[]]]; discriminate. }
    { reflexivity. }
    exists p3, m2. split; [rewrite Ek; exact E3|apply R3].
Qed.

(** ** The line reader *)

(** C3, as the code has it.  [bufferedBytesDelim] reads up to the first CR,
    consumes it and the one byte after it, whatever that byte is, and returns
    the bytes before the CR.  It fails, with io.EOF, when no CR is buffered
    (everything buffered is then consumed) and when nothing follows the CR
    (the line is then returned next to the error). *)
Theorem bufferedBytesDelim_reads_a_line m p :
  wf_pool m p ->
  (forall l c r, bufload m (p_buf p) = l ++ CR :: c :: r -> ~ In CR l ->
     exists p' s, bufferedBytesDelim p m = Ok ((p', (Some s, None)), m) /\
                  load m s = l /\ bufload m (p_buf p') = r) /\
  (forall l, bufload m (p_buf p) = l ++ [CR] -> ~ In CR l ->
     exists p' s, bufferedBytesDelim p m = Ok ((p', (s, Some EOF)), m) /\
                  content m (of_oslice s) = l /\ bufload m (p_buf p') = []) /\
  (~ In CR (bufload m (p_buf p)) ->
     exists p', bufferedBytesDelim p m = Ok ((p', (None, Some EOF)), m) /\
                bufload m (p_buf p') = []).
Proof.
  intros W. split; [|split].
  - intros l c r L N.
    destruct (bufferedBytesDelim_line m p l c r (conj W L) N) as (p' & s & E & R & _ & C & _).
    exists p', s. split; [exact E|]. split; [exact C|apply R].
  - intros l L N.
    destruct (bufferedBytesDelim_cut m p l (conj W L) N) as (p' & s & E & R & C).
    exists p', s. split; [exact E|]. split; [exact C|apply R].
  - intros N.
    destruct (bufferedBytesDelim_missing m p _ (conj W eq_refl) N) as (p' & E & R).
    exists p'. split; [exact E|apply R].
Qed.

(** ** Truncated and mismatched input *)

(** C7. The input [$3\r\nfo] unmarshaled as a bulk string into a nil
    destination: no panic, the error says that 3 bytes were expected and 2
    were there, the destination holds those 2 bytes, and the buffer has been
    read to its end and no further. *)
Theorem BulkString_truncated m pp bb :
  wf_opool m pp -> wf_gobytes m bb ->
  content m bb = bs "$3" ++ [CR; LF] ++ bs "fo" ->
  exists p' B' m',
    BulkString_UnmarshalRESP pp GNil bb m = Ok ((p', (B', Some (ErrBulkLen 3 2))), m') /\
    content m' B' = bs "fo" /\
    bufload m' (p_buf p') = [] /\ Buffer_Len (p_buf p') = 0.
Proof.
  intros W Wb Cb. rewrite BulkString_UnmarshalRESP_frame.
  destruct (decode_frame_match m pp bb bulkStrPrefix GNil (BulkString_payload GNil)
              (bs "3" ++ CR :: LF :: bs "fo") W Wb Cb) as (p2 & m2 & Ek & R & _).
  destruct (BulkString_payload_fresh m2 p2 (bs "3") LF (bs "fo") 3 R)
    as (p3 & B' & m3 & E3 & _ & C3 & R3 & _).
  { intros [H|[]]; discriminate. }
  { reflexivity. }
  { lia. }
  exists p3, B', m3. split; [rewrite Ek; exact E3|]. split; [exact C3|].
  cbn in R3. destruct R3 as ((Wb3 & _) & L3). split; [exact L3|].
  rewrite <- (bufload_length m3 _ Wb3), L3. reflexivity.
Qed.

Lemma decode_frame_rejects {A} m pp bb prefix (old : A) k c :
  wf_opool m pp -> wf_gobytes m bb -> prefix = [c] ->
  (forall rest, content m bb <> c :: rest) ->
  rejects_prefix (decode_frame pp bb prefix old k) m prefix old (content m bb).
Proof.
  intros W Wb -> N.
  destruct (decode_frame_mismatch m pp bb [c] old k W Wb) as (p' & m' & E & R).
  - simpl. destruct (content m bb) as [|x rest]; [discriminate|].
    simpl. intros H. injection H as ->. now apply (N rest).
  - exists p', m'. split; [exact E|apply R].
Qed.

(** C8, as the code has it.  An input that does not begin with the prefix
    byte of the codec is rejected at once: the error names the expected
    prefix and the first byte of the input (nothing, when the input is
    empty), the destination keeps what it held, and that first byte is the
    only one consumed (none, when the input is empty). *)
Theorem prefix_mismatch m pp bb :
  wf_opool m pp -> wf_gobytes m bb ->
  (forall S, (forall rest, content m bb <> "+"%byte :: rest) ->
     rejects_prefix (SimpleString_UnmarshalRESP pp S bb) m (bs "+") S (content m bb)) /\
  (forall E, (forall rest, content m bb <> "-"%byte :: rest) ->
     rejects_prefix (Error_UnmarshalRESP pp E bb) m (bs "-") E (content m bb)) /\
  (forall I, (forall rest, content m bb <> ":"%byte :: rest) ->
     rejects_prefix (Int_UnmarshalRESP pp I bb) m (bs ":") I (content m bb)) /\
  (forall B, (forall rest, content m bb <> "$"%byte :: rest) ->
     rejects_prefix (BulkString_UnmarshalRESP pp B bb) m (bs "$") B (content m bb)) /\
  (forall N, (forall rest, content m bb <> "*"%byte :: rest) ->
     rejects_prefix (ArrayHeader_UnmarshalRESP pp N bb) m (bs "*") N (content m bb)).
Proof.
  intros W Wb. repeat split; intros old N.
  - rewrite SimpleString_UnmarshalRESP_frame. now apply decode_frame_rejects with (c := "+"%byte).
  - rewrite Error_UnmarshalRESP_frame. now apply decode_frame_rejects with (c := "-"%byte).
  - rewrite Int_UnmarshalRESP_frame. now apply decode_frame_rejects with (c := ":"%byte).
  - rewrite BulkString_UnmarshalRESP_frame. now apply decode_frame_rejects with (c := "$"%byte).
  - rewrite ArrayHeader_UnmarshalRESP_frame. now apply decode_frame_rejects with (c := "*"%byte).
Qed.

(** C10. A destination [B] that is not nil and holds [k > 0] bytes: the
    [n] bytes of a well-formed bulk string are appended after them, so that
    the destination then holds the [k] bytes it held followed by the
    payload, and the decoder returns the length error that reports [k + n]
    bytes where [n] were expected.  So a decode into the place succeeds only
    for a nil or empty destination: with [k > 0] it never returns without an
    error.  (For the bytes the destination held to be those of before the
    call, it must not lie in the pool's own arrays, which the decoder writes
    the input to before it appends.) *)
Theorem BulkString_destination_not_empty m pp B bb payload :
  wf_opool m pp -> wf_gobytes m bb -> wf_gobytes m B ->
  0 < glen B ->
  (Z.of_nat (length payload) < 2 ^ 63)%Z ->
  content m bb = bulk payload ->
  (exists p' B' m',
     BulkString_UnmarshalRESP pp B bb m =
       Ok ((p', (B', Some (ErrBulkLen (Z.of_nat (length payload))
                                      (Z.of_nat (glen B + length payload))))), m') /\
     glen B' = glen B + length payload /\
     is_nil B' = false /\
     (outside m pp B -> content m' B' = content m B ++ payload)) /\
  (forall p' B' m', BulkString_UnmarshalRESP pp B bb m <> Ok ((p', (B', None)), m')).
Proof.
  intros W Wb WB Hk Hlen Cb.
  assert (X : exists p' B' m',
             BulkString_UnmarshalRESP pp B bb m =
               Ok ((p', (B', Some (ErrBulkLen (Z.of_nat (length payload))
                                              (Z.of_nat (glen B + length payload))))), m') /\
             glen B' = glen B + length payload /\
             is_nil B' = false /\
             (outside m pp B -> content m' B' = content m B ++ payload)).
  { rewrite BulkString_UnmarshalRESP_frame.
    destruct (decode_frame_match m pp bb bulkStrPrefix B (BulkString_payload B)
                (strconv.FormatInt (Z.of_nat (length payload)) ++ CR :: LF :: (payload ++ delim))
                W Wb) as (p2 & m2 & Ek & R & F).
    { rewrite Cb. unfold bulk, line, delim. rewrite <- !app_assoc. reflexivity. }
    pose proof F as [N02 _].
    assert (HB : is_nil B = false) by (destruct B; [simpl in Hk; lia|reflexivity|reflexivity]).
    destruct (BulkString_payload_append m2 p2 B _ LF (payload ++ delim)
                (Z.of_nat (length payload)) R (FormatInt_no_CR _))
      as (B1 & m1 & p1 & B2 & m3 & W1 & L1 & _ & _ & Hsame & _ & _ & E2 & E).
    { apply ParseInt_FormatInt. lia. }
    { lia. }
    { eapply wf_gobytes_mono; eauto. }
    destruct (Hsame HB) as [HB1 Hm1]. subst B1 m1. clear Hsame L1.
    rewrite Nat2Z.id, firstn_prefix in E2.
    destruct (gappend_spec m2 B payload W1) as (B2' & m3' & E2' & _ & L2 & C2 & _ & N2).
    rewrite E2 in E2'. injection E2' as <- <-.
    assert (Hne : (Z.of_nat (glen B2) =? Z.of_nat (length payload))%Z = false)
      by (apply Z.eqb_neq; lia).
    rewrite Hne in E. cbn [negb] in E.
    exists p1, B2, m3. split; [|split; [exact L2|split; [exact (N2 HB)|]]].
    - rewrite Ek, E, L2. reflexivity.
    - intros Out. rewrite C2. f_equal.
      destruct B as [|l|s]; [reflexivity|reflexivity|].
      cbn [content outside] in *. unfold load. apply (frame_load _ _ _ _ _ _ F). exact Out. }
  split; [exact X|].
  destruct X as (p1 & B1 & m1 & E & _). intros p' B' m' Hc. rewrite E in Hc. discriminate.
Qed.

(** ** The generic marshaler *)

(** The pointer case calls [Any.MarshalRESP] again, on the [reflect.Value]
    that [reflect.Indirect] returned. *)
Lemma Any_MarshalRESP_pointer pointee pp m :
  Any_MarshalRESP (VPtr pointee) pp m =
  Any_MarshalRESP (Indirect pointee) (Some (get pp)) m.
Proof. reflexivity. Qed.

(** Marshaling a pointer does not marshal what it points to: whatever the
    pointee, nil included, and whatever the pool, [Any.MarshalRESP] returns
    no bytes and the error "could not marshal value of type reflect.Value". *)
Theorem Any_pointer_is_not_followed m pp pointee :
  wf_opool m pp ->
  exists p' g m',
    Any_MarshalRESP (VPtr pointee) pp m =
      Ok ((p', (g, Some (ErrCouldNotMarshal "reflect.Value"))), m') /\
    content m' g = [].
Proof.
  intros W. destruct (Any_MarshalRESP_simulates (VPtr pointee) m pp W) as (p' & g & m' & E & P).
  destruct P as (_ & _ & C & _). exists p', g, m'. split; [exact E|exact C].
Qed.

(** An [int] itself is marshaled to its line. *)
Lemma Any_int m pp i :
  wf_opool m pp ->
  exists p' g m',
    Any_MarshalRESP (VInt i) pp m = Ok ((p', (g, None)), m') /\
    content m' g = line intPrefix (anyIntToInt64 i).
Proof.
  intros W. destruct (Any_MarshalRESP_simulates (VInt i) m pp W) as (p' & g & m' & E & P).
  destruct P as (_ & _ & C & _). exists p', g, m'. split; [exact E|exact C].
Qed.


(** The outputs that [enc_elems] lists are, one by one, what the list model
    gives for each element, the scratch being as the elements before left
    it. *)
Lemma enc_elems_snoc l x st :
  enc_elems enc (l ++ [x]) st = enc_step (enc x) (enc_elems enc l st).
Proof. revert st. induction l as [|y l IH]; intros st; simpl; [reflexivity|apply IH]. Qed.

(** The invariant of the loop over the elements: one [arrVal] leaves what
    [ogBuf] held in place and puts the element's output right behind it. *)
Lemma arrVal_extends m0 pp hd m p ogBuf err outs e0 sn x :
  looping m0 pp hd m (p, ogBuf, err) (outs, e0, sn) ->
  match enc x sn with
  | Ok (o, e, sn1) =>
      exists p1 ogBuf1 m1,
        arrVal (Any_MarshalRESP x) (p, ogBuf, err) m = Ok ((p1, ogBuf1, e), m1) /\
        bufload m ogBuf = hd ++ concat outs /\
        bufload m1 ogBuf1 = bufload m ogBuf ++ kept o e
  | Panic _ => exists s, arrVal (Any_MarshalRESP x) (p, ogBuf, err) m = Panic s
  end.
Proof.
  intros H.
  pose proof (arrVal_step m0 pp hd m (p, ogBuf, err) (outs, e0, sn)
                (Any_MarshalRESP x) (enc x) H (Any_MarshalRESP_simulates x)) as S.
  simpl in S. destruct (enc x sn) as [[[o e] sn1]|msg]; [|exact S].
  destruct S as ([[p1 ogBuf1] err1] & m1 & E & (H1 & -> & _)).
  exists p1, ogBuf1, m1. split; [exact E|].
  destruct H as ((_ & _ & L & _) & _). destruct H1 as (_ & _ & L1 & _).
  cbn [set_buf p_buf] in *. split; [exact L|].
  rewrite L1, L, concat_snoc, app_assoc. reflexivity.
Qed.

(** C6. The generic marshaler on an empty slice of strings, on the slice
    of "a" and "b", on the nil interface and on a nil slice, with any
    well-formed pool. *)
Theorem Any_marshal_examples m pp :
  wf_opool m pp ->
  (exists p' g m',
     Any_MarshalRESP (VSlice (Some [])) pp m = Ok ((p', (g, None)), m') /\
     content m' g = bs "*0" ++ [CR; LF]) /\
  (exists p' g m',
     Any_MarshalRESP (VSlice (Some [VString (bs "a"); VString (bs "b")])) pp m
       = Ok ((p', (g, None)), m') /\
     content m' g = bs "*2" ++ [CR; LF] ++ bs "$1" ++ [CR; LF] ++ bs "a" ++ [CR; LF]
                      ++ bs "$1" ++ [CR; LF] ++ bs "b" ++ [CR; LF]) /\
  (exists p' g m',
     Any_MarshalRESP VNil pp m = Ok ((p', (g, None)), m') /\
     content m' g = bs "$-1" ++ [CR; LF]) /\
  (exists p' g m',
     Any_MarshalRESP (VSlice None) pp m = Ok ((p', (g, None)), m') /\
     content m' g = bs "*-1" ++ [CR; LF]).
Proof.
  intros W.
  assert (X : forall v out,
             (forall sn, exists sn', enc v sn = Ok (out, None, sn')) ->
             exists p' g m',
               Any_MarshalRESP v pp m = Ok ((p', (g, None)), m') /\ content m' g = out).
  { intros v out Hv. pose proof (Any_MarshalRESP_simulates v m pp W) as S.
    destruct (Hv (is_nil (of_oslice (oscratch pp)))) as (sn' & Ev). rewrite Ev in S.
    destruct S as (p' & g & m' & E & P). destruct P as (_ & _ & C & _).
    exists p', g, m'. split; [exact E|exact C]. }
  repeat split; apply X; intros sn; eexists; destruct sn; reflexivity.
Qed.

End Resp.

(* ================================================================== *)
(** * The streaming encoder *)

Section EncoderFacts.

Context {W : Type} `{Radix.Writer W}.



(** The streaming encoder follows a pointer to what it points to. *)
Lemma write_pointer (e : Radix.encoder2) v :
  Radix.write e (Radix.VPtr (Some v)) = Radix.write e v.
Proof. reflexivity. Qed.

End EncoderFacts.

(* ================================================================== *)
(** * The claims at concrete inputs *)

Lemma exact_fit_ge c n : n <= exact_fit c n.
Proof. apply le_n. Qed.

Lemma small_pool_wf : wf_pool small_mem small_pool.
Proof. repeat split; simpl; lia. Qed.

Lemma line_pool_wf : wf_pool line_mem line_pool.
Proof. repeat split; simpl; lia. Qed.

Lemma roundtrip_every_kind_witness :
  (* the empty simple string *)
  (exists p1 g m1,
     SimpleString_MarshalRESP exact_fit None (GLit []) empty_mem = Ok ((p1, (g, None)), m1) /\
     exists p2 S' m2,
       SimpleString_UnmarshalRESP exact_fit None GNil g m1 = Ok ((p2, (S', None)), m2) /\
       is_nil S' = false /\ content m2 S' = []) /\
  (* zero and a negative integer *)
  (exists p1 g m1,
     Int_MarshalRESP exact_fit None 0 empty_mem = Ok ((p1, (g, None)), m1) /\
     exists p2 m2, Int_UnmarshalRESP exact_fit None 7 g m1 = Ok ((p2, (0%Z, None)), m2)) /\
  (exists p1 g m1,
     Int_MarshalRESP exact_fit None (-5) empty_mem = Ok ((p1, (g, None)), m1) /\
     exists p2 m2, Int_UnmarshalRESP exact_fit None 0 g m1 = Ok ((p2, ((-5)%Z, None)), m2)) /\
  (* the nil bulk string, and one with CR LF inside *)
  (exists p1 g m1,
     BulkString_MarshalRESP exact_fit None GNil empty_mem = Ok ((p1, (g, None)), m1) /\
     exists p2 B' m2,
       BulkString_UnmarshalRESP exact_fit None GNil g m1 = Ok ((p2, (B', None)), m2) /\
       is_nil B' = true /\ content m2 B' = []) /\
  (exists p1 g m1,
     BulkString_MarshalRESP exact_fit None (GLit (bs "foo" ++ [CR; LF] ++ bs "bar")) empty_mem
       = Ok ((p1, (g, None)), m1) /\
     exists p2 B' m2,
       BulkString_UnmarshalRESP exact_fit None GNil g m1 = Ok ((p2, (B', None)), m2) /\
       is_nil B' = false /\ content m2 B' = bs "foo" ++ [CR; LF] ++ bs "bar") /\
  (* the nil array header *)
  (exists p1 g m1,
     ArrayHeader_MarshalRESP exact_fit None (-1) empty_mem = Ok ((p1, (g, None)), m1) /\
     exists p2 m2,
       ArrayHeader_UnmarshalRESP exact_fit None 0 g m1 = Ok ((p2, ((-1)%Z, None)), m2)).
Proof.
  destruct (roundtrip_every_kind exact_fit exact_fit_ge empty_mem None I)
    as (HS & _ & HI & HB & HA).
  split.
  { destruct (HS []) as (p1 & g & m1 & E & D); [intros []|].
    exists p1, g, m1. split; [exact E|exact (D None I)]. }
  split.
  { destruct (HI 0%Z) as (p1 & g & m1 & E & D); [lia|].
    exists p1, g, m1. split; [exact E|exact (D None 7%Z I)]. }
  split.
  { destruct (HI (-5)%Z) as (p1 & g & m1 & E & D); [lia|].
    exists p1, g, m1. split; [exact E|exact (D None 0%Z I)]. }
  split.
  { destruct (HB None) as (p1 & g & m1 & E & D); [simpl; lia|].
    exists p1, g, m1. split; [exact E|exact (D None I)]. }
  split.
  { destruct (HB (Some (bs "foo" ++ [CR; LF] ++ bs "bar"))) as (p1 & g & m1 & E & D);
      [simpl; lia|].
    exists p1, g, m1. split; [exact E|exact (D None I)]. }
  destruct (HA (-1)%Z) as (p1 & g & m1 & E & D); [lia|].
  exists p1, g, m1. split; [exact E|exact (D None 0%Z I)].
Defined.

Lemma BulkString_nil_and_empty_witness :
  BulkString_MarshalRESP exact_fit (Some small_pool) GNil small_mem
    = Ok ((small_pool, (GLit (bs "$-1" ++ [CR; LF]), None)), small_mem) /\
  (exists p' m',
     BulkString_UnmarshalRESP exact_fit (Some small_pool) (GLit (bs "old"))
       (GLit (bs "$-1" ++ [CR; LF] ++ bs "+OK" ++ [CR; LF])) small_mem
       = Ok ((p', (GNil, None)), m') /\
     bufload m' (p_buf p') = bs "+OK" ++ [CR; LF]).
Proof.
  destruct (BulkString_nil_and_empty exact_fit exact_fit_ge small_mem (Some small_pool)
              small_pool_wf) as (H1 & _ & _ & H4).
  split; [exact H1|]. apply H4; [exact I|reflexivity].
Defined.

Lemma bufferedBytesDelim_reads_a_line_witness :
  exists p' s,
    bufferedBytesDelim line_pool line_mem = Ok ((p', (Some s, None)), line_mem) /\
    load line_mem s = bs "foo" /\ bufload line_mem (p_buf p') = bs "yz".
Proof.
  destruct (bufferedBytesDelim_reads_a_line line_mem line_pool line_pool_wf) as (H & _).
  apply (H (bs "foo") "X"%byte (bs "yz")); [reflexivity|].
  intros [E|[E|[E|[]]]]; discriminate.
Defined.

(** C3, as it is stated, fails: a CR followed by a byte that is not LF is
    taken for the end of a line, and no error is reported. *)
Lemma bufferedBytesDelim_accepts_bare_CR :
  ~ (forall m p l c r,
       wf_pool m p -> bufload m (p_buf p) = l ++ CR :: c :: r -> ~ In CR l -> c <> LF ->
       exists p' s e, bufferedBytesDelim p m = Ok ((p', (s, Some e)), m)).
Proof.
  intros H.
  destruct (H line_mem line_pool (bs "foo") "X"%byte (bs "yz") line_pool_wf eq_refl)
    as (p' & s & e & E).
  - intros [E|[E|[E|[]]]]; discriminate.
  - discriminate.
  - vm_compute in E. discriminate.
Qed.

(** The same through a codec: [+foo\rX] unmarshals as the simple string
    [foo], without an error. *)
Lemma SimpleString_accepts_bare_CR :
  exists p' S m',
    SimpleString_UnmarshalRESP exact_fit None GNil (GLit (bs "+foo" ++ [CR] ++ bs "X")) empty_mem
      = Ok ((p', (S, None)), m') /\ content m' S = bs "foo".
Proof. do 3 eexists. split; vm_compute; reflexivity. Qed.

(** C4 at [&n] for [n = 5]: the marshaler returns the error and no bytes,
    where marshaling [n] itself returns [:5\r\n]. *)
Theorem Any_pointer_to_int :
  (exists p' g m',
     Any_MarshalRESP exact_fit (VPtr (Some (VInt 5))) None empty_mem
       = Ok ((p', (g, Some (ErrCouldNotMarshal "reflect.Value"))), m') /\
     content m' g = []) /\
  (exists p' g m',
     Any_MarshalRESP exact_fit (VInt 5) None empty_mem = Ok ((p', (g, None)), m') /\
     content m' g = bs ":5" ++ [CR; LF]) /\
  (exists p' g m',
     Any_MarshalRESP exact_fit (VPtr None) None empty_mem
       = Ok ((p', (g, Some (ErrCouldNotMarshal "reflect.Value"))), m') /\
     content m' g = []).
Proof. repeat split; do 3 eexists; split; vm_compute; reflexivity. Qed.


Lemma Any_marshal_examples_witness :
  exists p' g m',
    Any_MarshalRESP exact_fit (VSlice (Some [VString (bs "a"); VString (bs "b")]))
      (Some small_pool) small_mem = Ok ((p', (g, None)), m') /\
    content m' g = bs "*2" ++ [CR; LF] ++ bs "$1" ++ [CR; LF] ++ bs "a" ++ [CR; LF]
                     ++ bs "$1" ++ [CR; LF] ++ bs "b" ++ [CR; LF].
Proof.
  destruct (Any_marshal_examples exact_fit exact_fit_ge small_mem (Some small_pool)
              small_pool_wf) as (_ & H & _).
  exact H.
Defined.

Lemma BulkString_truncated_witness :
  exists p' B' m',
    BulkString_UnmarshalRESP exact_fit None GNil (GLit (bs "$3" ++ [CR; LF] ++ bs "fo")) empty_mem
      = Ok ((p', (B', Some (ErrBulkLen 3 2))), m') /\
    content m' B' = bs "fo" /\
    bufload m' (p_buf p') = [] /\ Buffer_Len (p_buf p') = 0.
Proof.
  apply (BulkString_truncated exact_fit exact_fit_ge empty_mem None
           (GLit (bs "$3" ++ [CR; LF] ++ bs "fo")) I I).
  reflexivity.
Defined.

Lemma prefix_mismatch_witness :
  rejects_prefix
    (BulkString_UnmarshalRESP exact_fit None GNil (GLit (bs ":5" ++ [CR; LF])))
    empty_mem (bs "$") GNil (bs ":5" ++ [CR; LF]).
Proof.
  destruct (prefix_mismatch exact_fit exact_fit_ge empty_mem None (GLit (bs ":5" ++ [CR; LF])) I I)
    as (_ & _ & _ & H & _).
  apply (H GNil). intros rest E. discriminate E.
Defined.

(** C8, as it is stated, fails on the empty input: it is rejected with the
    prefix error, and nothing has been consumed. *)
Lemma empty_input_consumes_nothing :
  ~ (forall input,
       (forall rest, input <> "$"%byte :: rest) ->
       exists p' m' e,
         BulkString_UnmarshalRESP exact_fit None GNil (GLit input) empty_mem
           = Ok ((p', (GNil, Some e)), m') /\
         length input = Buffer_Len (p_buf p') + 1).
Proof.
  intros H. destruct (H []) as (p' & m' & e & E & L); [discriminate|].
  vm_compute in E. injection E as <- _ _. vm_compute in L. discriminate.
Qed.

Lemma BulkString_destination_not_empty_witness :
  exists p' B' m',
    BulkString_UnmarshalRESP exact_fit None (GLit (bs "x"))
      (GLit (bs "$3" ++ [CR; LF] ++ bs "foo" ++ [CR; LF])) empty_mem
      = Ok ((p', (B', Some (ErrBulkLen 3 4))), m') /\
    glen B' = 4 /\ is_nil B' = false /\ content m' B' = bs "xfoo".
Proof.
  destruct (BulkString_destination_not_empty exact_fit exact_fit_ge empty_mem None
              (GLit (bs "x")) (GLit (bs "$3" ++ [CR; LF] ++ bs "foo" ++ [CR; LF])) (bs "foo")
              I I I) as ((p' & B' & m' & E & L & N & C) & _).
  - simpl. lia.
  - simpl. lia.
  - reflexivity.
  - exists p', B', m'. split; [exact E|]. split; [exact L|]. split; [exact N|exact (C I)].
Defined.

